(** * web3-sherlock: the transaction dashboard, its graph synthesizer and its
    submission handlers.

    The sources hold the page twice: [src/app/page.tsx], whose effect draws
    one edge for every log (module [PerLog] below), and a second copy of the
    page kept without a name (part_000), whose effect counts the logs of each
    lowercased address and draws one edge for each (module [Counted]). The
    handlers, the state and the summary panel are the same in both. *)

From Stdlib Require Import Ascii String ZArith NArith Lia.
From stdpp Require Import base numbers option list strings gmap pretty.

Set Warnings "-clear-no-such-hyp".

Local Open Scope string_scope.
Local Open Scope list_scope.

(** ** JavaScript values used by the page *)

Module Js.

(** [String.prototype.toLowerCase], on the Latin letters an address can hold
    (an address is a [0x]-prefixed hexadecimal string). *)
Definition toLowerCase_char (c : ascii) : ascii :=
  let n := N_of_ascii c in
  if ((65 <=? n) && (n <=? 90))%N then ascii_of_N (n + 32) else c.

Fixpoint toLowerCase (s : string) : string :=
  match s with
  | EmptyString => EmptyString
  | String c rest => String (toLowerCase_char c) (toLowerCase rest)
  end.

(** [String.prototype.slice(start, end)]: a negative index counts from the
    end, both indices are clamped to the string, an empty string results
    when the end is not after the start. *)
Definition slice (s : string) (start : Z) (end_ : option Z) : string :=
  let len := Z.of_nat (String.length s) in
  let clamp i := if (i <? 0)%Z then Z.max (len + i) 0 else Z.min i len in
  let from := clamp start in
  let upto := match end_ with Some e => clamp e | None => len end in
  substring (Z.to_nat from) (Z.to_nat (upto - from)) s.

(** Truthiness of a [string | null | undefined]: the value itself when it is
    a non-empty string. *)
Definition truthy (o : option string) : option string :=
  match o with
  | Some s => if decide (s = "") then None else Some s
  | None => None
  end.

(** [Array.prototype.forEach((element, index) => ...)], threading what the
    callback mutates. *)
Fixpoint forEach_from {A St : Type} (f : St -> A -> nat -> St)
    (index : nat) (arr : list A) (s : St) : St :=
  match arr with
  | [] => s
  | a :: rest => forEach_from f (S index) rest (f s a index)
  end.

Definition forEach {A St : Type} (f : St -> A -> nat -> St)
    (arr : list A) (s : St) : St :=
  forEach_from f 0 arr s.

(** [new Set(array)] spread back into an array: the distinct elements in
    the order of their first occurrence. *)
Definition Set_add (s : list string) (v : string) : list string :=
  if decide (v ∈ s) then s else s ++ [v].

Definition new_Set (arr : list string) : list string :=
  foldl Set_add [] arr.

(** The line break that a template literal writes as a backslash and n. *)
Definition newline : string := String (ascii_of_nat 10) EmptyString.

End Js.

(** ** Data model *)

Module Log.
Record t := { address : string }.
End Log.

Module Transaction.
Record t := { value : N }.
End Transaction.

Module Receipt.
Record t := {
  from : string;
  to : option string;
  logs : list Log.t;
  blockNumber : N;
  gasUsed : N;
  effectiveGasPrice : N
}.
End Receipt.

Module TxInfo.
Record t := {
  from : string;
  to : option string;
  logsCount : nat;
  value : N;
  blockNumber : N;
  gasUsed : N;
  effectiveGasPrice : N
}.
End TxInfo.

Record Position := { x : nat; y : nat }.

Record Style := {
  backgroundColor : option string;
  color : option string;
  width : option string;
  height : option string;
  textAlign : option string;
  strokeWidth : option nat
}.

Definition no_style : Style :=
  {| backgroundColor := None; color := None; width := None; height := None;
     textAlign := None; strokeWidth := None |}.

Module Node.
Record t := {
  id : string;
  position : Position;
  label : string;
  style : option Style
}.
End Node.

Module Edge.
Record t := {
  id : string;
  source : string;
  target : string;
  animated : bool;
  style : option Style;
  label : option string
}.
End Edge.

(** ** The value formatter of the chain client library *)

Module Viem.

(** The [w] low decimal digits of [n], most significant first. *)
Fixpoint fixed_digits (w : nat) (n : N) : list N :=
  match w with
  | O => []
  | S w' => fixed_digits w' (n / 10) ++ [(n mod 10)%N]
  end.

Fixpoint strip_trailing_zeros (ds : list N) : list N :=
  match ds with
  | [] => []
  | d :: rest =>
      match strip_trailing_zeros rest with
      | [] => if (d =? 0)%N then [] else [d]
      | kept => d :: kept
      end
  end.

Definition digits_string (ds : list N) : string :=
  string_of_list_ascii (pretty_N_char <$> ds).

(** Modelled from the spec: [formatEther] belongs to the viem library, which
    is not among the sources. The spec gives it as the 18-decimal
    fixed-point conversion: the arbitrary-precision integer divided by
    10^18 and written in decimal with nothing rounded away, one whole unit
    reading "1". The integer part is the quotient, the fractional part the
    eighteen digits of the remainder without their trailing zeros, and the
    decimal point is written only before a non-empty fraction. *)
Definition formatEther (wei : N) : string :=
  let integer := (wei / 10 ^ 18)%N in
  let fraction := strip_trailing_zeros (fixed_digits 18 (wei mod 10 ^ 18)) in
  pretty integer +:+
  match fraction with
  | [] => ""
  | _ => "." +:+ digits_string fraction
  end.

End Viem.

(** ** Pieces of the synthesizer shared by both revisions *)

Definition truncated (address : string) : string :=
  Js.slice address 0%Z (Some 6%Z) +:+ "..." +:+ Js.slice address (-4)%Z None.

Definition sender_style : Style :=
  {| backgroundColor := Some "#50e3c2"; color := Some "black"; width := None;
     height := None; textAlign := None; strokeWidth := None |}.

Definition stroke_style : Style :=
  {| backgroundColor := None; color := None; width := None; height := None;
     textAlign := None; strokeWidth := Some 2 |}.

(** The edge from the sender to the receiver; [source] and [target] are the
    node ids the revision uses for the two addresses. *)
Definition transfer_edge (from to_ source target : string) (value : N) : Edge.t :=
  {| Edge.id := "e-" +:+ from +:+ "-" +:+ to_;
     Edge.source := source;
     Edge.target := target;
     Edge.animated := true;
     Edge.style := Some stroke_style;
     Edge.label := Some (Viem.formatEther value +:+ " ETH") |}.

(** ** The synthesizer of the revision that counts log emissions

    The body of the [else] branch of [fetchAndProcessTransaction] in the
    unnamed copy of the page, from [const newNodes] to [setEdges]. *)

Module Counted.

(** Step 1: how many logs each lowercased address emitted. *)
Definition count_log (logCounts : gmap string nat) (log : Log.t) (_ : nat)
    : gmap string nat :=
  let count := default 0 (logCounts !! Js.toLowerCase (Log.address log)) in
  <[Js.toLowerCase (Log.address log) := count + 1]> logCounts.

Definition logCounts (logs : list Log.t) : gmap string nat :=
  Js.forEach count_log logs ∅.

Definition weighted_style (count : nat) : Style :=
  let nodeWidth := 150 + count * 5 in
  let nodeHeight := 60 + count * 2 in
  {| backgroundColor := Some "#f5a623"; color := Some "black";
     width := Some (pretty nodeWidth +:+ "px");
     height := Some (pretty nodeHeight +:+ "px");
     textAlign := Some "center"; strokeWidth := None |}.

Definition sender_node (from : string) : Node.t :=
  {| Node.id := Js.toLowerCase from;
     Node.position := {| x := 50; y := 200 |};
     Node.label := "From: " +:+ truncated from;
     Node.style := Some sender_style |}.

Definition receiver_node (to_ : string) (count : nat) : Node.t :=
  {| Node.id := Js.toLowerCase to_;
     Node.position := {| x := 300; y := 200 |};
     Node.label := "To: " +:+ truncated to_ +:+ Js.newline +:+ "Events: " +:+ pretty count;
     Node.style := Some (if decide (0 < count) then weighted_style count else no_style) |}.

Definition contract_node (logAddress : string) (index count : nat) : Node.t :=
  {| Node.id := logAddress;
     Node.position := {| x := 550; y := 50 + index * 120 |};
     Node.label := "Contract: " +:+ truncated logAddress +:+ Js.newline +:+ "Events: " +:+ pretty count;
     Node.style := Some (weighted_style count) |}.

Definition contract_edge (to_ logAddress : string) : Edge.t :=
  {| Edge.id := "e-main-" +:+ to_ +:+ "-" +:+ logAddress;
     Edge.source := Js.toLowerCase to_;
     Edge.target := logAddress;
     Edge.animated := false;
     Edge.style := None;
     Edge.label := None |}.

Definition uniqueLogAddresses (logs : list Log.t) : list string :=
  Js.new_Set ((fun l => Js.toLowerCase (Log.address l)) <$> logs).

(** Step 2: the nodes, with the map of the addresses already drawn. *)
Definition draw_contract (logCounts : gmap string nat)
    (drawn : list Node.t * gmap string bool) (logAddress : string) (index : nat)
    : list Node.t * gmap string bool :=
  let '(newNodes, addressMap) := drawn in
  if decide (is_Some (addressMap !! logAddress)) then (newNodes, addressMap)
  else
    let count := default 0 (logCounts !! logAddress) in
    (newNodes ++ [contract_node logAddress index count],
     <[logAddress := true]> addressMap).

Definition draw_parties (logCounts : gmap string nat) (receipt : Receipt.t)
    : list Node.t * gmap string bool :=
  let fromAddress := Js.toLowerCase (Receipt.from receipt) in
  let newNodes := [sender_node (Receipt.from receipt)] in
  let addressMap : gmap string bool := <[fromAddress := true]> ∅ in
  match Js.truthy (Receipt.to receipt) with
  | Some to_ =>
      let toAddress := Js.toLowerCase to_ in
      let count := default 0 (logCounts !! toAddress) in
      (newNodes ++ [receiver_node to_ count], <[toAddress := true]> addressMap)
  | None => (newNodes, addressMap)
  end.

Definition synthesize_nodes (receipt : Receipt.t) : list Node.t * gmap string bool :=
  let logCounts := logCounts (Receipt.logs receipt) in
  Js.forEach (draw_contract logCounts)
    (uniqueLogAddresses (Receipt.logs receipt))
    (draw_parties logCounts receipt).

(** Step 3: the edges. *)
Definition link_contract (to_ : string) (newEdges : list Edge.t)
    (logAddress : string) (_ : nat) : list Edge.t :=
  if decide (logAddress ≠ Js.toLowerCase to_)
  then newEdges ++ [contract_edge to_ logAddress]
  else newEdges.

Definition synthesize_edges (transaction : Transaction.t) (receipt : Receipt.t)
    : list Edge.t :=
  match Js.truthy (Receipt.to receipt) with
  | Some to_ =>
      Js.forEach (link_contract to_)
        (uniqueLogAddresses (Receipt.logs receipt))
        [transfer_edge (Receipt.from receipt) to_
           (Js.toLowerCase (Receipt.from receipt)) (Js.toLowerCase to_)
           (Transaction.value transaction)]
  | None => []
  end.

Definition synthesize (transaction : Transaction.t) (receipt : Receipt.t)
    : list Node.t * list Edge.t :=
  ((synthesize_nodes receipt).1, synthesize_edges transaction receipt).

End Counted.

(** ** The synthesizer of the revision that draws one edge per log

    The same part of [fetchAndProcessTransaction] in [src/app/page.tsx]. *)

Module PerLog.

Definition sender_node (from : string) : Node.t :=
  {| Node.id := from;
     Node.position := {| x := 50; y := 200 |};
     Node.label := "From: " +:+ truncated from;
     Node.style := Some sender_style |}.

Definition receiver_node (to_ : string) : Node.t :=
  {| Node.id := to_;
     Node.position := {| x := 300; y := 200 |};
     Node.label := "To: " +:+ truncated to_;
     Node.style := None |}.

Definition contract_style : Style :=
  {| backgroundColor := Some "#f5a623"; color := Some "black"; width := None;
     height := None; textAlign := None; strokeWidth := None |}.

Definition contract_node (address : string) (index : nat) : Node.t :=
  {| Node.id := address;
     Node.position := {| x := 550; y := 100 + index * 100 |};
     Node.label := "Contract: " +:+ truncated address;
     Node.style := Some contract_style |}.

Definition log_edge (to_ address : string) (index : nat) : Edge.t :=
  {| Edge.id := "e-log-" +:+ to_ +:+ "-" +:+ address +:+ "-" +:+ pretty index;
     Edge.source := to_;
     Edge.target := address;
     Edge.animated := false;
     Edge.style := None;
     Edge.label := Some ("Event #" +:+ pretty (index + 1)) |}.

(** What the loop over the logs mutates: the two arrays and the map of the
    addresses already drawn. *)
Definition draw_log (to : option string)
    (drawn : list Node.t * list Edge.t * gmap string bool)
    (log : Log.t) (index : nat) : list Node.t * list Edge.t * gmap string bool :=
  let '(newNodes, newEdges, addressMap) := drawn in
  let '(newNodes, addressMap) :=
    if decide (is_Some (addressMap !! Log.address log))
    then (newNodes, addressMap)
    else (newNodes ++ [contract_node (Log.address log) index],
          <[Log.address log := true]> addressMap) in
  let newEdges :=
    match Js.truthy to with
    | Some to_ => newEdges ++ [log_edge to_ (Log.address log) index]
    | None => newEdges
    end in
  (newNodes, newEdges, addressMap).

Definition draw_parties (transaction : Transaction.t) (receipt : Receipt.t)
    : list Node.t * list Edge.t * gmap string bool :=
  let from := Receipt.from receipt in
  let newNodes := [sender_node from] in
  let newEdges : list Edge.t := [] in
  let addressMap : gmap string bool := <[from := true]> ∅ in
  match Js.truthy (Receipt.to receipt) with
  | Some to_ =>
      (newNodes ++ [receiver_node to_],
       newEdges ++ [transfer_edge from to_ from to_ (Transaction.value transaction)],
       <[to_ := true]> addressMap)
  | None => (newNodes, newEdges, addressMap)
  end.

Definition synthesize_state (transaction : Transaction.t) (receipt : Receipt.t)
    : list Node.t * list Edge.t * gmap string bool :=
  Js.forEach (draw_log (Receipt.to receipt))
    (Receipt.logs receipt)
    (draw_parties transaction receipt).

Definition synthesize (transaction : Transaction.t) (receipt : Receipt.t)
    : list Node.t * list Edge.t :=
  (synthesize_state transaction receipt).1.

End PerLog.

(** ** Regular expressions of the shape the validator uses *)

Module RegExp.

Inductive Atom :=
| Char (c : ascii)
| Class (ranges : list (ascii * ascii)).

(** [atom{times}] *)
Record Item := { atom : Atom; times : nat }.

(** A pattern is a sequence of items between [^] and [$]. *)
Definition t := list Item.

Definition in_range (c : ascii) (range : ascii * ascii) : bool :=
  ((N_of_ascii range.1 <=? N_of_ascii c) && (N_of_ascii c <=? N_of_ascii range.2))%N.

Definition atom_matches (a : Atom) (c : ascii) : bool :=
  match a with
  | Char c' => Ascii.eqb c c'
  | Class ranges => existsb (in_range c) ranges
  end.

Fixpoint consume (a : Atom) (n : nat) (s : string) : option string :=
  match n with
  | O => Some s
  | S n' =>
      match s with
      | String c rest => if atom_matches a c then consume a n' rest else None
      | EmptyString => None
      end
  end.

Fixpoint test (re : t) (s : string) : bool :=
  match re with
  | [] => bool_decide (s = "")
  | item :: re' =>
      match consume (atom item) (times item) s with
      | Some rest => test re' rest
      | None => false
      end
  end.

End RegExp.

(** [/^0x[a-fA-F0-9]{64}$/] *)
Definition hash_pattern : RegExp.t :=
  [ {| RegExp.atom := RegExp.Char "0"; RegExp.times := 1 |};
    {| RegExp.atom := RegExp.Char "x"; RegExp.times := 1 |};
    {| RegExp.atom := RegExp.Class [("a", "f"); ("A", "F"); ("0", "9")]%char;
       RegExp.times := 64 |} ].

(** ** The chain client as the page sees it *)

Module Thrown.
(** A thrown value: whether it is an [Error] and the [name] it carries. *)
Record t := { instanceofError : bool; name : option string }.
End Thrown.

Inductive Settled (A : Type) :=
| Fulfilled (a : A)
| Rejected (err : Thrown.t).
Arguments Fulfilled {A} a.
Arguments Rejected {A} err.

Record PublicClient := {
  getTransaction : string -> Settled (option Transaction.t);
  getTransactionReceipt : string -> Settled (option Receipt.t);
  (** which of the two requests settles first, when it matters *)
  receiptSettlesFirst : string -> bool
}.

Record Env := {
  ALCHEMY_URL : option string;
  publicClient : PublicClient
}.

(** [Promise.all] of two promises: both values, or the first rejection. *)
Definition Promise_all {A B : Type} (secondFirst : bool)
    (p : Settled A) (q : Settled B) : Settled (A * B) :=
  match p, q with
  | Fulfilled a, Fulfilled b => Fulfilled (a, b)
  | Rejected err, Fulfilled _ => Rejected err
  | Fulfilled _, Rejected err => Rejected err
  | Rejected err1, Rejected err2 => Rejected (if secondFirst then err2 else err1)
  end.

(** ** The component state and the messages *)

Module Msg.
Definition missing_url : string := "エラー: AlchemyのURLが設定されていません。".
Definition info_not_found : string := "トランザクションの情報が見つかりませんでした。".
Definition not_found : string := "トランザクションが見つかりませんでした。".
Definition unexpected : string := "予期せぬエラーが発生しました。".
Definition bad_hash : string := "エラー: 正しいトランザクションハッシュの形式ではありません。".
Definition creation : string := "N/A (Contract Creation)".
End Msg.

Record State := {
  inputHash : string;
  targetHash : option string;
  txInfo : option TxInfo.t;
  isLoading : bool;
  error : option string;
  nodes : list Node.t;
  edges : list Edge.t
}.

Definition initial : State :=
  {| inputHash := ""; targetHash := None; txInfo := None; isLoading := false;
     error := None; nodes := []; edges := [] |}.

Inductive Request :=
| GetTransaction (hash : string)
| GetTransactionReceipt (hash : string).

(** What a handler acts on: the state, the states painted so far and the
    requests sent so far. *)
Record World := {
  ui : State;
  painted : list State;
  requested : list Request
}.

Definition UI (A : Type) : Type := World -> A * World.

Global Instance UI_ret : MRet UI := fun A a w => (a, w).
Global Instance UI_bind : MBind UI := fun A B f m w => let '(a, w') := m w in f a w'.

Definition modify (f : State -> State) : UI unit :=
  fun w => (tt, {| ui := f (ui w); painted := painted w; requested := requested w |}).

Definition current : UI State := fun w => (ui w, w).

Definition paint : UI unit :=
  fun w => (tt, {| ui := ui w; painted := painted w ++ [ui w]; requested := requested w |}).

Definition request (r : Request) : UI unit :=
  fun w => (tt, {| ui := ui w; painted := painted w; requested := requested w ++ [r] |}).

Definition setInputHash (v : string) : UI unit :=
  modify (fun st =>
    {| inputHash := v; targetHash := targetHash st; txInfo := txInfo st;
       isLoading := isLoading st; error := error st; nodes := nodes st;
       edges := edges st |}).

Definition setTargetHash (v : option string) : UI unit :=
  modify (fun st =>
    {| inputHash := inputHash st; targetHash := v; txInfo := txInfo st;
       isLoading := isLoading st; error := error st; nodes := nodes st;
       edges := edges st |}).

Definition setTxInfo (v : option TxInfo.t) : UI unit :=
  modify (fun st =>
    {| inputHash := inputHash st; targetHash := targetHash st; txInfo := v;
       isLoading := isLoading st; error := error st; nodes := nodes st;
       edges := edges st |}).

Definition setIsLoading (v : bool) : UI unit :=
  modify (fun st =>
    {| inputHash := inputHash st; targetHash := targetHash st; txInfo := txInfo st;
       isLoading := v; error := error st; nodes := nodes st; edges := edges st |}).

Definition setError (v : option string) : UI unit :=
  modify (fun st =>
    {| inputHash := inputHash st; targetHash := targetHash st; txInfo := txInfo st;
       isLoading := isLoading st; error := v; nodes := nodes st; edges := edges st |}).

Definition setNodes (v : list Node.t) : UI unit :=
  modify (fun st =>
    {| inputHash := inputHash st; targetHash := targetHash st; txInfo := txInfo st;
       isLoading := isLoading st; error := error st; nodes := v; edges := edges st |}).

Definition setEdges (v : list Edge.t) : UI unit :=
  modify (fun st =>
    {| inputHash := inputHash st; targetHash := targetHash st; txInfo := txInfo st;
       isLoading := isLoading st; error := error st; nodes := nodes st; edges := v |}).

(** ** The page: effect and handlers, over either synthesizer *)

Section Home.

Variable synthesize : Transaction.t -> Receipt.t -> list Node.t * list Edge.t.
Variable env : Env.

Definition fetchAndProcessTransaction (targetHash : string) : UI unit :=
  setIsLoading true;;
  setError None;;
  setTxInfo None;;
  setNodes [];;
  setEdges [];;
  match Js.truthy (ALCHEMY_URL env) with
  | None =>
      setError (Some Msg.missing_url);;
      setIsLoading false
  | Some _ =>
      request (GetTransaction targetHash);;
      request (GetTransactionReceipt targetHash);;
      paint;;
      match Promise_all (receiptSettlesFirst (publicClient env) targetHash)
              (getTransaction (publicClient env) targetHash)
              (getTransactionReceipt (publicClient env) targetHash) with
      | Fulfilled (Some transaction, Some receipt) =>
          setTxInfo (Some
            {| TxInfo.from := Receipt.from receipt;
               TxInfo.to := Receipt.to receipt;
               TxInfo.logsCount := length (Receipt.logs receipt);
               TxInfo.value := Transaction.value transaction;
               TxInfo.blockNumber := Receipt.blockNumber receipt;
               TxInfo.gasUsed := Receipt.gasUsed receipt;
               TxInfo.effectiveGasPrice := Receipt.effectiveGasPrice receipt |});;
          let '(newNodes, newEdges) := synthesize transaction receipt in
          setNodes newNodes;;
          setEdges newEdges
      | Fulfilled _ =>
          setError (Some Msg.info_not_found)
      | Rejected err =>
          if Thrown.instanceofError err
             && bool_decide (Thrown.name err = Some "TransactionNotFoundError")
          then setError (Some Msg.not_found)
          else setError (Some Msg.unexpected)
      end;;
      setIsLoading false
  end.

(** The effect keyed on [targetHash]: it runs after a paint in which the
    hash differs from the one of the paint before. *)
Definition useEffect (previous : option string) : UI unit :=
  st ← current;
  if decide (targetHash st = previous) then mret tt
  else
    match Js.truthy (targetHash st) with
    | None => mret tt
    | Some hash => fetchAndProcessTransaction hash
    end.

Definition handleAnalyse : UI unit :=
  st ← current;
  setError None;;
  if negb (bool_decide (inputHash st = ""))
     && RegExp.test hash_pattern (inputHash st)
  then setTargetHash (Some (inputHash st))
  else
    setError (Some Msg.bad_hash);;
    setTargetHash None;;
    setTxInfo None;;
    setNodes [];;
    setEdges [].

Definition handleReset : UI unit :=
  setInputHash "";;
  setTargetHash None;;
  setTxInfo None;;
  setError None;;
  setNodes [];;
  setEdges [].

(** What the click handler of the analyse button sets off: the handler, the
    paint of its result, the effect, and the paint of what the effect left.
    The button itself, which does not call the handler while it is disabled,
    is [press_analyse] below. *)
Definition submit : UI unit :=
  st ← current;
  handleAnalyse;;
  paint;;
  useEffect (targetHash st);;
  paint.

End Home.

(** ** The summary panel *)

Record Summary := {
  shown_blockNumber : string;
  shown_from : string;
  shown_to : string;
  shown_value : string;
  shown_fee : string;
  shown_logsCount : string
}.

(** The panel is drawn under [!isLoading && !error && txInfo]. *)
Definition summary (st : State) : option Summary :=
  if isLoading st then None
  else
    match Js.truthy (error st) with
    | Some _ => None
    | None =>
        info ← txInfo st;
        Some
          {| shown_blockNumber := pretty (TxInfo.blockNumber info);
             shown_from := TxInfo.from info;
             shown_to := default Msg.creation (Js.truthy (TxInfo.to info));
             shown_value := Viem.formatEther (TxInfo.value info);
             shown_fee :=
               Viem.formatEther (TxInfo.gasUsed info * TxInfo.effectiveGasPrice info);
             shown_logsCount := pretty (TxInfo.logsCount info) |}
    end.

Definition start (st : State) : World :=
  {| ui := st; painted := []; requested := [] |}.

(** ** What the claims speak of *)

Local Abbreviation lower := Js.toLowerCase.

(** The addresses a receipt mentions: sender, receiver when there is one, and
    the emitter of every log. *)
Definition addresses (receipt : Receipt.t) : list string :=
  Receipt.from receipt
  :: option_list (Js.truthy (Receipt.to receipt))
  ++ (Log.address <$> Receipt.logs receipt).

(** The ids the counting revision gives the sender and receiver nodes. *)
Definition party_ids (receipt : Receipt.t) : list string :=
  lower (Receipt.from receipt)
  :: option_list (lower <$> Js.truthy (Receipt.to receipt)).


(** How many edges run between two addresses, letter case put aside. *)
Definition edges_between (a b : string) (es : list Edge.t) : nat :=
  length (filter (fun e => lower (Edge.source e) = lower a
                           ∧ lower (Edge.target e) = lower b) es).


(** One labelled sender→receiver edge and one receiver→contract edge for each
    distinct log address other than the receiver, and nothing else; no edge
    out of the sender without a receiver. *)
Definition one_edge_per_contract
    (synthesize : Transaction.t -> Receipt.t -> list Node.t * list Edge.t) : Prop :=
  ∀ transaction receipt,
    let es := (synthesize transaction receipt).2 in
    let from := Receipt.from receipt in
    match Js.truthy (Receipt.to receipt) with
    | Some to_ =>
        edges_between from to_ es = 1
        ∧ (∀ e, e ∈ es → lower (Edge.source e) = lower from →
             lower (Edge.target e) = lower to_ →
             Edge.label e = Some (Viem.formatEther (Transaction.value transaction) +:+ " ETH"))
        ∧ (∀ log, log ∈ Receipt.logs receipt →
             lower (Log.address log) ≠ lower to_ →
             edges_between to_ (Log.address log) es = 1)
        ∧ (∀ e, e ∈ es →
             (lower (Edge.source e) = lower from ∧ lower (Edge.target e) = lower to_)
             ∨ (lower (Edge.source e) = lower to_
                ∧ lower (Edge.target e) ≠ lower to_
                ∧ Edge.target e ∈ lower <$> (Log.address <$> Receipt.logs receipt)))
    | None => ∀ e, e ∈ es → lower (Edge.source e) ≠ lower from
    end.

(** The four nodes of a transfer from [S] to [R] whose logs come from [A],
    [A] and [B]: the contract nodes carry their emission counts in label and
    size. *)
Definition four_nodes (S R A B : string) (ns : list Node.t) : Prop :=
  ns = [Counted.sender_node S; Counted.receiver_node R 0;
        Counted.contract_node (lower A) 0 2; Counted.contract_node (lower B) 1 1].

(** A receipt of sender [S] and receiver [R] with logs of [A], [A] and [B],
    where [A] and [B] are two addresses and [R] is neither. *)
Definition logs_AAB (receipt : Receipt.t) (S R A B : string) : Prop :=
  Receipt.from receipt = S
  ∧ Receipt.to receipt = Some R ∧ R ≠ ""
  ∧ Log.address <$> Receipt.logs receipt = [A; A; B]
  ∧ lower A ≠ lower B ∧ lower R ≠ lower A ∧ lower R ≠ lower B.

Definition four_nodes_for_logs_AAB : Prop :=
  ∀ transaction receipt S R A B,
    logs_AAB receipt S R A B →
    four_nodes S R A B (Counted.synthesize transaction receipt).1.

(** A string is a transaction hash in the spec's words: [0x] and then exactly
    64 hexadecimal characters of either case. *)
Definition is_hex (c : ascii) : bool :=
  let n := N_of_ascii c in
  ((48 <=? n) && (n <=? 57) || (97 <=? n) && (n <=? 102) || (65 <=? n) && (n <=? 70))%N.

Definition well_formed_hash (s : string) : Prop :=
  ∃ body, s = "0x" +:+ body
          ∧ String.length body = 64
          ∧ Forall (fun c => is_hex c = true) (list_ascii_of_string body).

(** Nothing of an earlier analysis is left in a state. *)
Definition cleared (st : State) : Prop :=
  txInfo st = None ∧ nodes st = [] ∧ edges st = [].

(** What a decimal string is worth in units of 10^-[decimals]: digits, then at
    most one point followed by at most [decimals] digits. *)
Definition digit_of (c : ascii) : option N :=
  let n := N_of_ascii c in
  if ((48 <=? n) && (n <=? 57))%N then Some (n - 48)%N else None.

Fixpoint digits_value (acc : N) (s : list ascii) : option N :=
  match s with
  | [] => Some acc
  | c :: rest => d ← digit_of c; digits_value (10 * acc + d) rest
  end.

Fixpoint split_point (s : list ascii) : list ascii * option (list ascii) :=
  match s with
  | [] => ([], None)
  | c :: rest =>
      if Ascii.eqb c "." then ([], Some rest)
      else let '(whole, fraction) := split_point rest in (c :: whole, fraction)
  end.

Definition decimal_units (decimals : nat) (s : string) : option N :=
  let '(whole, fraction) := split_point (list_ascii_of_string s) in
  let fraction := default [] fraction in
  if decide (whole = [] ∨ (decimals < length fraction)%nat) then None
  else
    w ← digits_value 0 whole;
    f ← digits_value 0 fraction;
    Some (w * 10 ^ N.of_nat decimals + f * 10 ^ N.of_nat (decimals - length fraction))%N.

(** ** The rest of the page: reset button, controls and chart *)

(** A press of the reset button, with the effect that follows its paint. *)
Definition reset (synthesize : Transaction.t -> Receipt.t -> list Node.t * list Edge.t)
    (env : Env) : UI unit :=
  st ← current;
  handleReset;;
  paint;;
  useEffect synthesize env (targetHash st);;
  paint.

(** [disabled={isLoading || !inputHash}] of the analyse button. *)
Definition analyse_disabled (st : State) : bool :=
  isLoading st || bool_decide (inputHash st = "").

(** A press of the analyse button: a disabled button does not call its
    handler. *)
Definition press_analyse
    (synthesize : Transaction.t -> Receipt.t -> list Node.t * list Edge.t)
    (env : Env) : UI unit :=
  st ← current;
  if analyse_disabled st then mret tt else submit synthesize env.

(** The result section is drawn under [isLoading || error || txInfo]. *)
Definition result_section_shown (st : State) : bool :=
  isLoading st
  || bool_decide (is_Some (Js.truthy (error st)))
  || bool_decide (is_Some (txInfo st)).

(** [components/FlowChart.tsx]: what the chart component returns. *)
Module FlowChart.

Inductive Rendered :=
| Placeholder
| ReactFlow (nodes : list Node.t) (edges : list Edge.t) (fitViewCalled : bool).

(** The effect of [FlowContent]: whether it calls [fitView]. *)
Definition FlowContent (nodes : list Node.t) (edges : list Edge.t) : bool :=
  bool_decide (0 < length nodes)%nat.

Definition FlowChart (nodes : list Node.t) (edges : list Edge.t) : Rendered :=
  if decide (length nodes = 0%nat) then Placeholder
  else ReactFlow nodes edges (FlowContent nodes edges).

End FlowChart.

(** [<FlowChart nodes={nodes} edges={edges} />] of the page. *)
Definition chart (st : State) : FlowChart.Rendered :=
  FlowChart.FlowChart (nodes st) (edges st).

(** ** Sample inputs *)

Module Sample.

Definition sender : string := "0x5E11e7000000000000000000000000000000aaaa".
Definition receiver : string := "0x7ec1e4000000000000000000000000000000bbbb".
Definition contractA : string := "0xC0117ac7000000000000000000000000000A1111".
Definition contractB : string := "0xc0117ac7000000000000000000000000000b2222".

Definition log (address : string) : Log.t := {| Log.address := address |}.

Definition receipt (from : string) (to : option string) (logs : list string)
    : Receipt.t :=
  {| Receipt.from := from; Receipt.to := to; Receipt.logs := log <$> logs;
     Receipt.blockNumber := 1; Receipt.gasUsed := 21000;
     Receipt.effectiveGasPrice := 1000000000 |}.

Definition one_ether : Transaction.t :=
  {| Transaction.value := 1000000000000000000 |}.

(** A transfer whose logs come from A, A and B. *)
Definition transfer : Receipt.t :=
  receipt sender (Some receiver) [contractA; contractA; contractB].


(** A transfer of an account to itself. *)
Definition self_transfer : Receipt.t := receipt sender (Some sender) [].

(** The sender itself emits the logs attributed to A. *)
Definition sender_logs : Receipt.t :=
  receipt contractA (Some receiver) [contractA; contractA; contractB].

(** A contract creation. *)
Definition creation : Receipt.t := receipt sender None [contractA; contractA].

Definition hash : string :=
  "0x9a8069502281a1a9a854224c328ed3389a8069502281a1a9a854224c328ed338".

Definition not_found_error : Thrown.t :=
  {| Thrown.instanceofError := true;
     Thrown.name := Some "TransactionNotFoundError" |}.

Definition client (transaction : Settled (option Transaction.t))
    (receipt : Settled (option Receipt.t)) : PublicClient :=
  {| getTransaction := fun _ => transaction;
     getTransactionReceipt := fun _ => receipt;
     receiptSettlesFirst := fun _ => false |}.

Definition env (transaction : Settled (option Transaction.t))
    (receipt : Settled (option Receipt.t)) : Env :=
  {| ALCHEMY_URL := Some "https://base-sepolia.example/v2/key";
     publicClient := client transaction receipt |}.

Definition other_hash : string :=
  "0x00000000000000000000000000000000000000000000000000000000deadBEEF".

(** A state left by an earlier, successful analysis of [transfer]. *)
Definition analysed : State :=
  {| inputHash := hash; targetHash := Some hash;
     txInfo := Some {| TxInfo.from := sender; TxInfo.to := Some receiver;
                       TxInfo.logsCount := 3; TxInfo.value := 1000000000000000000;
                       TxInfo.blockNumber := 1; TxInfo.gasUsed := 21000;
                       TxInfo.effectiveGasPrice := 1000000000 |};
     isLoading := false; error := None;
     nodes := (Counted.synthesize one_ether transfer).1;
     edges := (Counted.synthesize one_ether transfer).2 |}.

(** The same with another hash typed into the field. *)
Definition retyped : State :=
  {| inputHash := other_hash; targetHash := targetHash analysed;
     txInfo := txInfo analysed; isLoading := false; error := None;
     nodes := nodes analysed; edges := edges analysed |}.

(** The same with something that is no hash typed into the field. *)
Definition mistyped : State :=
  {| inputHash := "0x9a80695022"; targetHash := targetHash analysed;
     txInfo := txInfo analysed; isLoading := false; error := None;
     nodes := nodes analysed; edges := edges analysed |}.

(** A run in flight, with another hash typed into the field meanwhile. *)
Definition loading_retyped : State :=
  {| inputHash := other_hash; targetHash := Some hash; txInfo := None;
     isLoading := true; error := None; nodes := []; edges := [] |}.

(** The state of a run still waiting for its two requests. *)
Definition loading : State :=
  {| inputHash := hash; targetHash := Some hash; txInfo := None;
     isLoading := true; error := None; nodes := []; edges := [] |}.

(** The receipt request fails with the error the client raises for a
    missing receipt. *)
Definition receipt_missing : Env :=
  env (Fulfilled (Some one_ether))
    (Rejected {| Thrown.instanceofError := true;
                 Thrown.name := Some "TransactionReceiptNotFoundError" |}).

Definition both_found : Env :=
  env (Fulfilled (Some one_ether)) (Fulfilled (Some transfer)).

(** The transaction request fails as not found, the receipt request
    succeeds. *)
Definition receipt_only : Env :=
  env (Rejected not_found_error) (Fulfilled (Some transfer)).

End Sample.

(** ** Proof steps for the handlers *)

(** Running a handler: its definition and the setters are unfolded, the
    pattern of the validator and the synthesizers are left as they are. *)
Ltac ui_run :=
  cbv beta iota zeta delta
    [submit useEffect handleAnalyse handleReset fetchAndProcessTransaction
     setInputHash setTargetHash setTxInfo setIsLoading setError setNodes setEdges
     modify current paint request mbind mret UI_bind UI_ret start Promise_all
     ui painted requested inputHash targetHash txInfo isLoading error nodes edges
     ALCHEMY_URL publicClient getTransaction getTransactionReceipt
     receiptSettlesFirst summary cleared Js.truthy fst snd app] in *.

(** A state among finitely many painted ones that shows an error. *)
Ltac painted_cases :=
  rewrite ?elem_of_cons, elem_of_nil;
  let Hs := fresh "Hs" in
  let Herr := fresh "Herr" in
  intros Hs Herr; destruct_or!; try done; inversion Hs; subst;
  try done; by destruct Herr.

(** * Facts about the JavaScript values *)

Lemma toLowerCase_char_idemp c :
  Js.toLowerCase_char (Js.toLowerCase_char c) = Js.toLowerCase_char c.
Proof. destruct c as [[] [] [] [] [] [] [] []]; reflexivity. Qed.

Lemma toLowerCase_idemp s : lower (lower s) = lower s.
Proof.
  induction s as [|c s IH]; simpl; [done|].
  by rewrite toLowerCase_char_idemp, IH.
Qed.

Lemma truthy_Some o s : Js.truthy o = Some s → o = Some s ∧ s ≠ "".
Proof.
  destruct o as [s'|]; simpl; [|done].
  case_decide; [done|]. intros [= ->]. done.
Qed.

Lemma truthy_None o : Js.truthy o = None ↔ o = None ∨ o = Some "".
Proof.
  destruct o as [s'|]; simpl; [|naive_solver].
  case_decide; naive_solver.
Qed.

Lemma forEach_from_app {A St} (f : St → A → nat → St) l1 l2 index s :
  Js.forEach_from f index (l1 ++ l2) s
  = Js.forEach_from f (index + length l1) l2 (Js.forEach_from f index l1 s).
Proof.
  revert index s. induction l1 as [|a l1 IH]; intros index s; simpl.
  - by rewrite Nat.add_0_r.
  - rewrite IH. f_equal. lia.
Qed.

Lemma foldl_Set_add_NoDup l : ∀ acc, NoDup acc → NoDup (foldl Js.Set_add acc l).
Proof.
  induction l as [|v l IH]; intros acc Hacc; simpl; [done|].
  apply IH. unfold Js.Set_add. case_decide; [done|].
  apply NoDup_app. split_and!; [done| |apply NoDup_singleton].
  intros k Hk ->%list_elem_of_singleton. done.
Qed.

Lemma elem_of_foldl_Set_add l : ∀ acc k,
  k ∈ foldl Js.Set_add acc l ↔ k ∈ acc ∨ k ∈ l.
Proof.
  induction l as [|v l IH]; intros acc k; simpl.
  - rewrite elem_of_nil. naive_solver.
  - rewrite IH, elem_of_cons. unfold Js.Set_add. case_decide.
    + naive_solver.
    + rewrite elem_of_app, list_elem_of_singleton. naive_solver.
Qed.

Lemma new_Set_NoDup arr : NoDup (Js.new_Set arr).
Proof. apply foldl_Set_add_NoDup, NoDup_nil_2. Qed.

Lemma elem_of_new_Set arr k : k ∈ Js.new_Set arr ↔ k ∈ arr.
Proof.
  unfold Js.new_Set. rewrite elem_of_foldl_Set_add, elem_of_nil. naive_solver.
Qed.

Lemma filter_ext_elem {A} (P Q : A → Prop)
    `{!∀ a, Decision (P a)} `{!∀ a, Decision (Q a)} (l : list A) :
  (∀ a, a ∈ l → P a ↔ Q a) → filter P l = filter Q l.
Proof.
  induction l as [|a l IH]; intros Hext; [done|].
  rewrite !filter_cons.
  rewrite IH by (intros b Hb; apply Hext; by right).
  destruct (decide (P a)) as [HP|HP], (decide (Q a)) as [HQ|HQ]; try done.
  - apply Hext in HP; [done|by left].
  - apply Hext in HQ; [done|by left].
Qed.

Lemma NoDup_filter_stable {A} (P : A → Prop) `{!∀ a, Decision (P a)} (l : list A) :
  NoDup l → NoDup (filter P l).
Proof.
  induction 1 as [|a l Ha _ IH]; [constructor|].
  rewrite filter_cons. case_decide; [|done].
  constructor; [|done]. rewrite list_elem_of_filter. naive_solver.
Qed.

Lemma filter_none {A} (P : A → Prop) `{!∀ a, Decision (P a)} (l : list A) :
  (∀ a, a ∈ l → ¬ P a) → filter P l = [].
Proof.
  induction l as [|a l IH]; intros Hnone; [done|].
  rewrite filter_cons_False by (apply Hnone; by left).
  apply IH. intros b Hb. apply Hnone. by right.
Qed.


(** One match exactly, in a list without duplicates. *)
Lemma length_filter_NoDup {B} `{!EqDecision B} (ks : list B) (b : B) :
  NoDup ks → b ∈ ks → length (filter (λ k, k = b) ks) = 1.
Proof.
  induction 1 as [|k ks Hk _ IH]; intros Hb.
  - by apply elem_of_nil in Hb.
  - rewrite filter_cons. case_decide as Hkb.
    + subst b. simpl. f_equal. rewrite filter_none; [done|]. by intros ? ? ->.
    + apply IH. apply elem_of_cons in Hb as [->|Hb]; done.
Qed.

(** * The emission-counting synthesizer *)

Section CountedFacts.

Lemma draw_contract_loop counts U : ∀ index ns am,
  NoDup U →
  (∀ k, is_Some (am !! k) ↔ k ∈ Node.id <$> ns) →
  ∃ extra am',
    Js.forEach_from (Counted.draw_contract counts) index U (ns, am)
    = (ns ++ extra, am')
    ∧ Node.id <$> extra = filter (λ k, k ∉ Node.id <$> ns) U.
Proof.
  induction U as [|a U IH]; intros index ns am HU Hdom; simpl.
  - exists [], am. by rewrite app_nil_r.
  - apply NoDup_cons in HU as [Ha HU]. case_decide as Hin.
    + destruct (IH (S index) ns am HU Hdom) as (extra & am' & -> & Hids).
      exists extra, am'. split; [done|].
      rewrite filter_cons_False; [done|]. apply Hdom in Hin. naive_solver.
    + set (node := Counted.contract_node a index (default 0 (counts !! a))).
      destruct (IH (S index) (ns ++ [node]) (<[a:=true]> am) HU)
        as (extra & am' & Heq & Hids).
      { intros k. rewrite lookup_insert_is_Some, fmap_app, elem_of_app, Hdom.
        simpl. rewrite list_elem_of_singleton.
        destruct (decide (a = k)); naive_solver. }
      exists (node :: extra), am'. rewrite Heq, <-app_assoc. split; [done|].
      rewrite filter_cons_True by (by rewrite <-Hdom).
      rewrite fmap_cons, Hids. f_equal. apply filter_ext_elem.
      intros k Hk. rewrite fmap_app, elem_of_app, list_fmap_singleton.
      rewrite list_elem_of_singleton. split; [naive_solver|].
      intros Hns [?| ->]; done.
Qed.

Lemma link_contract_loop to_ U : ∀ index es,
  Js.forEach_from (Counted.link_contract to_) index U es
  = es ++ (Counted.contract_edge to_ <$> filter (λ k, k ≠ lower to_) U).
Proof.
  induction U as [|a U IH]; intros index es; simpl.
  - by rewrite app_nil_r.
  - rewrite IH, filter_cons. unfold Counted.link_contract.
    case_decide; [|done]. by rewrite fmap_cons, <-app_assoc.
Qed.

Lemma draw_parties_ids counts receipt :
  Node.id <$> (Counted.draw_parties counts receipt).1 = party_ids receipt
  ∧ ∀ k, is_Some ((Counted.draw_parties counts receipt).2 !! k)
         ↔ k ∈ party_ids receipt.
Proof.
  unfold Counted.draw_parties, party_ids.
  destruct (Js.truthy (Receipt.to receipt)) as [to_|]; simpl.
  - split; [done|]. intros k.
    rewrite !lookup_insert_is_Some, lookup_empty, is_Some_alt, !elem_of_cons, elem_of_nil.
    destruct (decide (lower to_ = k)); naive_solver.
  - split; [done|]. intros k.
    rewrite !lookup_insert_is_Some, lookup_empty, is_Some_alt, !elem_of_cons, elem_of_nil.
    naive_solver.
Qed.

(** The node ids: the parties, then the distinct lowercased log addresses
    that are neither party, in the order of their first log. *)
Lemma synthesize_node_ids transaction receipt :
  Node.id <$> (Counted.synthesize transaction receipt).1
  = party_ids receipt
    ++ filter (λ k, k ∉ party_ids receipt)
         (Counted.uniqueLogAddresses (Receipt.logs receipt)).
Proof.
  unfold Counted.synthesize, Counted.synthesize_nodes, Js.forEach. simpl.
  set (counts := Counted.logCounts _).
  destruct (draw_parties_ids counts receipt) as [Hids Hdom].
  destruct (Counted.draw_parties counts receipt) as [ns am]. simpl in *.
  destruct (draw_contract_loop counts
              (Counted.uniqueLogAddresses (Receipt.logs receipt)) 0 ns am)
    as (extra & am' & -> & Hextra).
  { apply new_Set_NoDup. }
  { intros k. by rewrite Hdom, Hids. }
  simpl. by rewrite fmap_app, Hextra, Hids.
Qed.

Lemma synthesize_edges_eq transaction receipt to_ :
  Js.truthy (Receipt.to receipt) = Some to_ →
  (Counted.synthesize transaction receipt).2
  = transfer_edge (Receipt.from receipt) to_
      (lower (Receipt.from receipt)) (lower to_) (Transaction.value transaction)
    :: (Counted.contract_edge to_
        <$> filter (λ k, k ≠ lower to_)
              (Counted.uniqueLogAddresses (Receipt.logs receipt))).
Proof.
  intros Hto. unfold Counted.synthesize, Counted.synthesize_edges, Js.forEach.
  simpl. rewrite Hto. by rewrite link_contract_loop.
Qed.

Lemma elem_of_uniqueLogAddresses logs k :
  k ∈ Counted.uniqueLogAddresses logs ↔ k ∈ lower <$> (Log.address <$> logs).
Proof.
  unfold Counted.uniqueLogAddresses. rewrite elem_of_new_Set.
  by rewrite <-list_fmap_compose.
Qed.

End CountedFacts.

(** * The one-edge-per-log synthesizer *)

Section PerLogFacts.

Lemma draw_log_loop to logs : ∀ index ns es am,
  (∀ k, is_Some (am !! k) ↔ k ∈ Node.id <$> ns) →
  ∃ extra am',
    Js.forEach_from (PerLog.draw_log to) index logs (ns, es, am)
    = (ns ++ extra,
       es ++ match Js.truthy to with
             | Some to_ =>
                 imap (λ j log, PerLog.log_edge to_ (Log.address log) (index + j)) logs
             | None => []
             end,
       am')
    ∧ NoDup (Node.id <$> extra)
    ∧ ∀ k, k ∈ Node.id <$> extra
           ↔ k ∈ Log.address <$> logs ∧ k ∉ Node.id <$> ns.
Proof.
  induction logs as [|log logs IH]; intros index ns es am Hdom.
  - exists [], am. simpl.
    split_and!; [by destruct (Js.truthy to); rewrite !app_nil_r|constructor|].
    intros k. rewrite elem_of_nil. naive_solver.
  - simpl. set (a := Log.address log).
    set (es1 := match Js.truthy to with
                | Some to_ => es ++ [PerLog.log_edge to_ a index]
                | None => es
                end).
    assert (es1 ++ match Js.truthy to with
                   | Some to_ =>
                       imap (λ j log, PerLog.log_edge to_ (Log.address log) (S index + j)) logs
                   | None => []
                   end
            = es ++ match Js.truthy to with
                    | Some to_ =>
                        PerLog.log_edge to_ a (index + 0)
                        :: imap ((λ j log, PerLog.log_edge to_ (Log.address log) (index + j)) ∘ S) logs
                    | None => []
                    end) as Hedges.
    { unfold es1. destruct (Js.truthy to) as [to_|]; [|done].
      rewrite <-app_assoc, Nat.add_0_r. simpl. do 2 f_equal.
      apply imap_ext. intros j log' _. simpl. f_equal. lia. }
    case_decide as Hin.
    + destruct (IH (S index) ns es1 am Hdom) as (extra & am' & -> & Hnd & Hextra).
      exists extra, am'. rewrite Hedges. split_and!; [done..|].
      intros k. rewrite Hextra, elem_of_cons. apply Hdom in Hin.
      fold a. naive_solver.
    + set (node := PerLog.contract_node a index).
      destruct (IH (S index) (ns ++ [node]) es1 (<[a:=true]> am))
        as (extra & am' & -> & Hnd & Hextra).
      { intros k. rewrite lookup_insert_is_Some, fmap_app, elem_of_app, Hdom.
        rewrite list_fmap_singleton, list_elem_of_singleton.
        destruct (decide (a = k)); naive_solver. }
      exists (node :: extra), am'. rewrite Hedges, <-app_assoc.
      assert (a ∉ Node.id <$> ns) as Hns by (by rewrite <-Hdom).
      split_and!; [done| |].
      * rewrite fmap_cons. constructor; [|done].
        rewrite Hextra, fmap_app, elem_of_app, list_fmap_singleton,
          list_elem_of_singleton. naive_solver.
      * intros k. rewrite fmap_cons, !elem_of_cons, Hextra, fmap_app, elem_of_app,
          list_fmap_singleton, list_elem_of_singleton. simpl. fold a.
        destruct (decide (k = a)); naive_solver.
Qed.

End PerLogFacts.

Section PerLogShape.

Lemma perlog_synthesize_shape transaction receipt :
  let from := Receipt.from receipt in
  ∃ extra,
    (PerLog.synthesize transaction receipt).1
    = PerLog.sender_node from
      :: option_list (PerLog.receiver_node <$> Js.truthy (Receipt.to receipt))
      ++ extra
    ∧ (PerLog.synthesize transaction receipt).2
      = match Js.truthy (Receipt.to receipt) with
        | Some to_ =>
            transfer_edge from to_ from to_ (Transaction.value transaction)
            :: imap (λ j log, PerLog.log_edge to_ (Log.address log) j)
                 (Receipt.logs receipt)
        | None => []
        end
    ∧ NoDup (Node.id <$> extra)
    ∧ ∀ k, k ∈ Node.id <$> extra
           ↔ k ∈ Log.address <$> Receipt.logs receipt
             ∧ k ∉ from :: option_list (Js.truthy (Receipt.to receipt)).
Proof.
  intros from. unfold PerLog.synthesize, PerLog.synthesize_state, Js.forEach.
  pose proof (draw_log_loop (Receipt.to receipt) (Receipt.logs receipt) 0) as Hloop.
  unfold PerLog.draw_parties. fold from.
  destruct (Js.truthy (Receipt.to receipt)) as [to_|] eqn:Hto.
  - destruct (Hloop ([PerLog.sender_node from] ++ [PerLog.receiver_node to_])
                ([] ++ [transfer_edge from to_ from to_ (Transaction.value transaction)])
                (<[to_:=true]> (<[from:=true]> ∅)))
      as (extra & am' & -> & Hnd & Hextra).
    { intros k. rewrite !lookup_insert_is_Some, lookup_empty, is_Some_alt.
      simpl. rewrite !elem_of_cons, elem_of_nil.
      destruct (decide (to_ = k)); naive_solver. }
    exists extra. simpl. split_and!; [done..|].
    intros k. rewrite Hextra. simpl. done.
  - destruct (Hloop [PerLog.sender_node from] [] (<[from:=true]> ∅))
      as (extra & am' & -> & Hnd & Hextra).
    { intros k. rewrite !lookup_insert_is_Some, lookup_empty, is_Some_alt.
      simpl. rewrite !elem_of_cons, elem_of_nil. naive_solver. }
    exists extra. simpl. split_and!; [done..|].
    intros k. rewrite Hextra. simpl. done.
Qed.

End PerLogShape.

(** * C1: node identity *)

Section NodeIdentity.




Lemma counted_ids_NoDup transaction receipt :
  (∀ to_, Js.truthy (Receipt.to receipt) = Some to_ →
          lower (Receipt.from receipt) ≠ lower to_) →
  NoDup (Node.id <$> (Counted.synthesize transaction receipt).1).
Proof.
  intros Hparties. rewrite synthesize_node_ids. apply NoDup_app. split_and!.
  - unfold party_ids. destruct (Js.truthy (Receipt.to receipt)) as [to_|]; simpl.
    + apply NoDup_cons. split; [|apply NoDup_singleton].
      rewrite list_elem_of_singleton. by apply Hparties.
    + apply NoDup_singleton.
  - intros k Hk. rewrite list_elem_of_filter. naive_solver.
  - apply NoDup_filter_stable, new_Set_NoDup.
Qed.

End NodeIdentity.

Section NodeCount.


End NodeCount.




(** * C2: the edges *)

Section Edges.

Lemma length_filter_fmap_list {A B} (P : B → Prop) `{!∀ b, Decision (P b)}
    (f : A → B) (l : list A) :
  length (filter P (f <$> l)) = length (filter (λ a, P (f a)) l).
Proof.
  induction l as [|a l IH]; [done|].
  rewrite fmap_cons, !filter_cons. case_decide; simpl; by rewrite IH.
Qed.

Lemma uniqueLogAddresses_lowercased logs k :
  k ∈ Counted.uniqueLogAddresses logs → lower k = k.
Proof.
  rewrite elem_of_uniqueLogAddresses. intros (a & -> & _)%list_elem_of_fmap.
  apply toLowerCase_idemp.
Qed.

Lemma counted_one_edge_per_contract : one_edge_per_contract Counted.synthesize.
Proof.
  intros transaction receipt. cbv zeta.
  destruct (Js.truthy (Receipt.to receipt)) as [to_|] eqn:Hto.
  - rewrite (synthesize_edges_eq _ _ _ Hto).
    set (U := Counted.uniqueLogAddresses (Receipt.logs receipt)).
    set (cs := filter (λ k, k ≠ lower to_) U).
    assert (∀ k, k ∈ cs → lower k = k ∧ k ≠ lower to_) as Hcs.
    { intros k [? ?]%list_elem_of_filter. split; [|done].
      by eapply uniqueLogAddresses_lowercased. }
    split_and!.
    + unfold edges_between. rewrite filter_cons_True
        by (simpl; by rewrite !toLowerCase_idemp).
      simpl. f_equal. rewrite filter_none; [done|].
      intros e (k & -> & Hk)%list_elem_of_fmap [_ Htarget]. simpl in Htarget.
      apply Hcs in Hk as [Hlow Hne]. by rewrite Hlow in Htarget.
    + intros e [->|He]%elem_of_cons _ Htarget; [done|].
      apply list_elem_of_fmap in He as (k & -> & Hk). simpl in Htarget.
      apply Hcs in Hk as [Hlow Hne]. by rewrite Hlow in Htarget.
    + intros log Hlog Hne. unfold edges_between.
      rewrite filter_cons_False
        by (simpl; rewrite !toLowerCase_idemp; naive_solver).
      rewrite length_filter_fmap_list. simpl.
      rewrite (filter_ext_elem _ (λ k, k = lower (Log.address log))).
      * apply length_filter_NoDup.
        -- apply NoDup_filter_stable, new_Set_NoDup.
        -- apply list_elem_of_filter. split; [done|].
           apply elem_of_uniqueLogAddresses.
           by apply list_elem_of_fmap_2, list_elem_of_fmap_2.
      * intros k [Hlow _]%Hcs. rewrite Hlow, toLowerCase_idemp. naive_solver.
    + intros e [->|He]%elem_of_cons; [left; simpl; by rewrite !toLowerCase_idemp|].
      right. apply list_elem_of_fmap in He as (k & -> & Hk). simpl.
      pose proof (Hcs k Hk) as [Hlow Hne].
      apply list_elem_of_filter in Hk as [_ Hk].
      apply elem_of_uniqueLogAddresses in Hk.
      by rewrite toLowerCase_idemp, Hlow.
  - unfold Counted.synthesize, Counted.synthesize_edges. simpl. rewrite Hto.
    intros e He. by apply elem_of_nil in He.
Qed.

End Edges.

(** C2, as the counting revision has it: with a receiver, one edge from sender
    to receiver that carries the value in ether, one edge from the receiver to
    each distinct lowercased log address other than the receiver, and no other
    edge; without a receiver, no edge out of the sender. The other revision
    draws, after the same first edge, one edge for every log. *)
Theorem counted_edges_one_per_contract :
  one_edge_per_contract Counted.synthesize
  ∧ ∀ transaction receipt to_,
      Js.truthy (Receipt.to receipt) = Some to_ →
      (PerLog.synthesize transaction receipt).2
      = transfer_edge (Receipt.from receipt) to_ (Receipt.from receipt) to_
          (Transaction.value transaction)
        :: imap (λ index log, PerLog.log_edge to_ (Log.address log) index)
             (Receipt.logs receipt).
Proof.
  split; [apply counted_one_edge_per_contract|].
  intros transaction receipt to_ Hto.
  destruct (perlog_synthesize_shape transaction receipt) as (extra & _ & Hes & _).
  by rewrite Hes, Hto.
Qed.

Lemma counted_edges_one_per_contract_witness :
  edges_between Sample.receiver Sample.contractA
    (Counted.synthesize Sample.one_ether Sample.transfer).2 = 1
  ∧ length (PerLog.synthesize Sample.one_ether Sample.transfer).2 = 4.
Proof.
  destruct counted_edges_one_per_contract as [Hcounted Hperlog]. split.
  - destruct (Hcounted Sample.one_ether Sample.transfer) as (_ & _ & Hlogs & _).
    apply (Hlogs (Sample.log Sample.contractA)).
    + by left.
    + vm_compute. discriminate.
  - by rewrite (Hperlog Sample.one_ether Sample.transfer Sample.receiver eq_refl).
Defined.

(** C2 as stated fails in the revision that draws one edge per log: two logs
    of one contract give two edges from the receiver to it. *)
Lemma one_edge_per_contract_fails : ¬ one_edge_per_contract PerLog.synthesize.
Proof.
  intros Hclaim.
  destruct (Hclaim Sample.one_ether Sample.transfer) as (_ & _ & Hlogs & _).
  specialize (Hlogs (Sample.log Sample.contractA)).
  vm_compute in Hlogs.
  assert (2 = 1)%nat; [|lia]. apply Hlogs; [by left|discriminate].
Qed.

(** * C3: logs of A, A and B *)

Section LogsAAB.

Lemma Set_add_new s v : v ∉ s → Js.Set_add s v = s ++ [v].
Proof. intros. unfold Js.Set_add. by rewrite decide_False. Qed.

Lemma Set_add_old s v : v ∈ s → Js.Set_add s v = s.
Proof. intros. unfold Js.Set_add. by rewrite decide_True. Qed.

Lemma new_Set_AAB a b : a ≠ b → Js.new_Set [a; a; b] = [a; b].
Proof.
  intros Hab. unfold Js.new_Set. cbn [foldl].
  rewrite (Set_add_new [] a) by apply not_elem_of_nil.
  rewrite (Set_add_old _ a) by (by left).
  rewrite Set_add_new by (by intros ->%list_elem_of_singleton).
  done.
Qed.

Lemma logCounts_AAB logs A B :
  Log.address <$> logs = [A; A; B] →
  lower A ≠ lower B →
  Counted.logCounts logs = <[lower B := 1]> (<[lower A := 2]> ∅).
Proof.
  intros Hlogs Hab.
  destruct logs as [|[a1] [|[a2] [|[a3] [|]]]]; simplify_eq/=.
  unfold Counted.logCounts, Js.forEach, Counted.count_log. simpl.
  rewrite lookup_empty. simpl. rewrite lookup_insert_eq. simpl.
  rewrite insert_insert_eq, lookup_insert_ne by done.
  by rewrite lookup_empty.
Qed.

Lemma uniqueLogAddresses_AAB logs A B :
  Log.address <$> logs = [A; A; B] →
  lower A ≠ lower B →
  Counted.uniqueLogAddresses logs = [lower A; lower B].
Proof.
  intros Hlogs Hab. unfold Counted.uniqueLogAddresses.
  rewrite (list_fmap_compose Log.address lower), Hlogs.
  by apply new_Set_AAB.
Qed.

End LogsAAB.

(** C3, with the sender too set apart from A and B: for logs of A, A and B,
    a receiver that is neither, and a sender that is neither, the nodes are
    exactly four: the sender, the receiver, A with emission count 2 and B with
    emission count 1. *)
Theorem four_nodes_for_logs_AAB_sender_apart transaction receipt S R A B :
  logs_AAB receipt S R A B →
  lower S ≠ lower A → lower S ≠ lower B →
  four_nodes S R A B (Counted.synthesize transaction receipt).1
  ∧ length (Counted.synthesize transaction receipt).1 = 4.
Proof.
  intros (HS & HR & HRne & Hlogs & HAB & HRA & HRB) HSA HSB.
  cut (four_nodes S R A B (Counted.synthesize transaction receipt).1).
  { intros Hfour. split; [done|]. by rewrite Hfour. }
  unfold four_nodes, Counted.synthesize, Counted.synthesize_nodes,
    Counted.draw_parties.
  rewrite (logCounts_AAB _ A B), (uniqueLogAddresses_AAB _ A B), HS, HR by done.
  cbn [fst Js.truthy]. rewrite decide_False by done.
  unfold Js.forEach. cbn [Js.forEach_from].
  unfold Counted.draw_contract at 2.
  rewrite decide_False.
  2:{ rewrite !lookup_insert_is_Some, lookup_empty, is_Some_alt. naive_solver. }
  unfold Counted.draw_contract.
  rewrite decide_False.
  2:{ rewrite !lookup_insert_is_Some, lookup_empty, is_Some_alt. naive_solver. }
  rewrite (lookup_insert_ne _ (lower B) (lower R)) by done.
  rewrite (lookup_insert_ne _ (lower A) (lower R)) by done.
  rewrite lookup_empty.
  rewrite (lookup_insert_ne _ (lower B) (lower A)) by done.
  by rewrite !lookup_insert_eq.
Qed.

Lemma four_nodes_for_logs_AAB_witness :
  four_nodes Sample.sender Sample.receiver Sample.contractA Sample.contractB
    (Counted.synthesize Sample.one_ether Sample.transfer).1
  ∧ length (Counted.synthesize Sample.one_ether Sample.transfer).1 = 4.
Proof.
  apply four_nodes_for_logs_AAB_sender_apart.
  - repeat split; vm_compute; discriminate.
  - vm_compute; discriminate.
  - vm_compute; discriminate.
Defined.

(** C3 as stated, with nothing said of the sender, fails: when the sender is
    the address A that emits the logs, A has no node beside the sender's and
    the nodes are three. *)
Lemma four_nodes_for_logs_AAB_fails : ¬ four_nodes_for_logs_AAB.
Proof.
  intros Hclaim.
  specialize (Hclaim Sample.one_ether Sample.sender_logs
                Sample.contractA Sample.receiver Sample.contractA Sample.contractB).
  assert (length (Counted.synthesize Sample.one_ether Sample.sender_logs).1 = 4)
    as Hfour.
  { rewrite Hclaim; [done|]. repeat split; vm_compute; discriminate. }
  vm_compute in Hfour. discriminate.
Qed.

(** * C4: the value on the transfer edge *)

Section Decimal.

Local Open Scope N_scope.

Local Abbreviation horner := (λ acc d : N, 10 * acc + d).

Lemma digit_of_pretty_N_char d : d < 10 → digit_of (pretty_N_char d) = Some d.
Proof.
  intros Hd.
  assert (d = 0 ∨ d = 1 ∨ d = 2 ∨ d = 3 ∨ d = 4 ∨ d = 5 ∨ d = 6 ∨ d = 7
          ∨ d = 8 ∨ d = 9) as Hcases by lia.
  destruct_or!; subst d; reflexivity.
Qed.

Lemma digits_value_chars ds : ∀ acc,
  Forall (λ d, d < 10) ds →
  digits_value acc (pretty_N_char <$> ds) = Some (foldl horner acc ds).
Proof.
  induction ds as [|d ds IH]; intros acc Hds; [done|].
  apply Forall_cons in Hds as [Hd Hds]. rewrite fmap_cons. simpl.
  rewrite digit_of_pretty_N_char by done. simpl. by apply IH.
Qed.

Lemma split_point_chars ds rest :
  Forall (λ d, d < 10) ds →
  split_point ((pretty_N_char <$> ds) ++ rest)
  = ((pretty_N_char <$> ds) ++ (split_point rest).1, (split_point rest).2).
Proof.
  induction 1 as [|d ds Hd _ IH]; [simpl; by destruct (split_point rest)|].
  rewrite fmap_cons. cbn [app split_point]. rewrite IH.
  assert (d = 0 ∨ d = 1 ∨ d = 2 ∨ d = 3 ∨ d = 4 ∨ d = 5 ∨ d = 6 ∨ d = 7
          ∨ d = 8 ∨ d = 9) as Hcases by lia.
  destruct_or!; subst d; reflexivity.
Qed.

Lemma fixed_digits_spec w : ∀ n acc,
  Forall (λ d, d < 10) (Viem.fixed_digits w n)
  ∧ length (Viem.fixed_digits w n) = w
  ∧ foldl horner acc (Viem.fixed_digits w n)
    = acc * 10 ^ N.of_nat w + n mod 10 ^ N.of_nat w.
Proof.
  induction w as [|w IH]; intros n acc; simpl Viem.fixed_digits.
  - split_and!; [constructor|done|]. simpl. rewrite N.mod_1_r. lia.
  - destruct (IH (n / 10) acc) as (Hall & Hlen & Hval). split_and!.
    + apply Forall_app. split; [done|]. repeat constructor.
      apply N.mod_lt. lia.
    + rewrite length_app, Hlen. simpl. lia.
    + rewrite foldl_app, Hval. simpl.
      rewrite Nat2N.inj_succ, N.pow_succ_r'.
      rewrite (N.Div0.mod_mul_r n 10). lia.
Qed.

Lemma strip_trailing_zeros_spec ds :
  ∃ k, ds = Viem.strip_trailing_zeros ds ++ replicate k 0.
Proof.
  induction ds as [|d ds [k IH]]; [by exists O|]. simpl.
  destruct (Viem.strip_trailing_zeros ds) as [|x xs] eqn:Hstrip.
  - destruct (N.eqb_spec d 0) as [->|Hd].
    + exists (S k). simpl. by rewrite IH.
    + exists k. simpl. by rewrite IH.
  - exists k. rewrite IH at 1. done.
Qed.

Lemma foldl_horner_zeros k : ∀ ds acc,
  foldl horner acc (ds ++ replicate k 0) = foldl horner acc ds * 10 ^ N.of_nat k.
Proof.
  induction k as [|k IH]; intros ds acc.
  - simpl. rewrite app_nil_r. lia.
  - replace (ds ++ replicate (S k) 0) with ((ds ++ [0]) ++ replicate k 0)
      by (by rewrite <-app_assoc).
    rewrite IH, foldl_app. simpl.
    rewrite Nat2N.inj_succ, N.pow_succ_r'. lia.
Qed.

End Decimal.

Section FormatEther.

Local Open Scope N_scope.

Local Abbreviation horner := (λ acc d : N, 10 * acc + d).

Lemma list_ascii_of_string_app a b :
  list_ascii_of_string (a +:+ b) = list_ascii_of_string a ++ list_ascii_of_string b.
Proof. induction a as [|c a IH]; simpl; [done|]. by rewrite IH. Qed.

Lemma pretty_N_go_digits x : ∀ s,
  ∃ ds, Forall (λ d, d < 10) ds
        ∧ (0 < x → ds ≠ [])
        ∧ list_ascii_of_string (pretty_N_go x s)
          = (pretty_N_char <$> ds) ++ list_ascii_of_string s
        ∧ foldl horner 0 ds = x.
Proof.
  induction (N.lt_wf_0 x) as [x _ IH]; intros s.
  destruct (decide (x = 0)) as [->|Hx].
  - exists []. rewrite pretty_N_go_0. split_and!; [constructor|lia|done..].
  - rewrite pretty_N_go_step by lia.
    destruct (IH (x / 10) (N.div_lt x 10 ltac:(lia) eq_refl)
                (String (pretty_N_char (x mod 10)) s))
      as (ds & Hall & _ & Hchars & Hval).
    exists (ds ++ [x mod 10]). split_and!.
    + apply Forall_app. split; [done|]. repeat constructor. apply N.mod_lt. lia.
    + intros _. by destruct ds.
    + rewrite Hchars, fmap_app, <-app_assoc. done.
    + rewrite foldl_app, Hval. simpl. rewrite (N.div_mod x 10) at 3 by lia. lia.
Qed.

Lemma pretty_N_digits x :
  ∃ ds, Forall (λ d, d < 10) ds
        ∧ ds ≠ []
        ∧ list_ascii_of_string (pretty x) = pretty_N_char <$> ds
        ∧ foldl horner 0 ds = x.
Proof.
  unfold pretty, pretty_N. case_decide as Hx.
  - subst x. exists [0]. split_and!; [repeat constructor; lia|done..].
  - destruct (pretty_N_go_digits x "") as (ds & Hall & Hne & Hchars & Hval).
    exists ds. split_and!; [done|apply Hne; lia| |done].
    by rewrite Hchars, app_nil_r.
Qed.

(** The string [formatEther] writes is worth exactly the formatted amount:
    read back in units of 10^-18 it is the integer that was formatted. *)
Lemma formatEther_exact wei : decimal_units 18 (Viem.formatEther wei) = Some wei.
Proof.
  unfold Viem.formatEther.
  set (q := wei / 10 ^ 18). set (r := wei mod 10 ^ 18).
  assert (wei = q * 10 ^ 18 + r) as Hwei.
  { unfold q, r. rewrite (N.div_mod wei (10 ^ 18)) at 1 by lia. lia. }
  assert (r < 10 ^ 18) as Hr by (apply N.mod_lt; lia).
  destruct (pretty_N_digits q) as (ds & Hall & Hne & Hchars & Hval).
  destruct (fixed_digits_spec 18 r 0) as (Fall & Flen & Fval).
  destruct (strip_trailing_zeros_spec (Viem.fixed_digits 18 r)) as [k Hk].
  set (F := Viem.strip_trailing_zeros (Viem.fixed_digits 18 r)) in *.
  assert (Forall (λ d, d < 10) F ∧ (length F + k = 18)%nat) as [HF HFlen].
  { rewrite Hk in Fall, Flen. apply Forall_app in Fall as [? _].
    rewrite length_app, length_replicate in Flen. done. }
  assert (r = foldl horner 0 F * 10 ^ N.of_nat k) as Hfrac.
  { rewrite <-foldl_horner_zeros, <-Hk, Fval.
    change (N.of_nat 18) with 18. rewrite N.mod_small by done. lia. }
  unfold decimal_units. rewrite list_ascii_of_string_app, Hchars.
  destruct F as [|f F'] eqn:HFeq.
  - rewrite split_point_chars by done. simpl.
    rewrite app_nil_r, decide_False.
    2:{ intros [Hnil|?]; [|lia]. by destruct ds. }
    rewrite digits_value_chars by done. simpl.
    rewrite Hval. f_equal. simpl in Hfrac. lia.
  - rewrite <-HFeq in *. clear HFeq.
    rewrite list_ascii_of_string_app. unfold Viem.digits_string.
    rewrite list_ascii_of_string_of_list_ascii.
    rewrite split_point_chars by done.
    change (list_ascii_of_string ".") with ["."%char].
    cbn [app split_point Ascii.eqb Bool.eqb fst snd default]. unfold id.
    rewrite app_nil_r, decide_False.
    2:{ rewrite length_fmap. intros [Hnil|?]; [|lia]. by destruct ds. }
    rewrite !digits_value_chars by done. simpl.
    rewrite Hval, length_fmap. f_equal.
    replace (18 - length F)%nat with k by lia.
    change (N.of_nat 18) with 18. lia.
Qed.

End FormatEther.

(** C4: with a receiver, the first edge of either revision runs from the
    sender to the receiver and is labelled with the value formatted in ether
    and the unit; the formatted string is worth exactly the value, so nothing
    is rounded away; and a value of 10^18 is labelled "1 ETH". *)
Theorem transfer_edge_label_exact transaction receipt to_ :
  Js.truthy (Receipt.to receipt) = Some to_ →
  let from := Receipt.from receipt in
  let value := Transaction.value transaction in
  let label := Viem.formatEther value +:+ " ETH" in
  (∃ e rest, (Counted.synthesize transaction receipt).2 = e :: rest
             ∧ Edge.source e = lower from ∧ Edge.target e = lower to_
             ∧ Edge.label e = Some label)
  ∧ (∃ e rest, (PerLog.synthesize transaction receipt).2 = e :: rest
               ∧ Edge.source e = from ∧ Edge.target e = to_
               ∧ Edge.label e = Some label)
  ∧ decimal_units 18 (Viem.formatEther value) = Some value
  ∧ (value = 1000000000000000000%N → label = "1 ETH").
Proof.
  intros Hto from value label. split_and!.
  - eexists _, _. rewrite (synthesize_edges_eq _ _ _ Hto). done.
  - destruct (perlog_synthesize_shape transaction receipt) as (extra & _ & Hes & _).
    rewrite Hto in Hes. eexists _, _. rewrite Hes. done.
  - apply formatEther_exact.
  - unfold label. by intros ->.
Qed.

Lemma transfer_edge_label_witness :
  ∃ e rest, (Counted.synthesize Sample.one_ether Sample.transfer).2 = e :: rest
            ∧ Edge.label e = Some "1 ETH".
Proof.
  destruct (transfer_edge_label_exact Sample.one_ether Sample.transfer Sample.receiver
              eq_refl) as ((e & rest & Hes & _ & _ & Hlabel) & _ & _ & Hone).
  exists e, rest. split; [done|]. by rewrite Hlabel, (Hone eq_refl).
Defined.

(** * C9 and C8: no receiver *)

Lemma synthesize_edges_nil transaction receipt :
  Js.truthy (Receipt.to receipt) = None →
  (Counted.synthesize transaction receipt).2 = []
  ∧ (PerLog.synthesize transaction receipt).2 = [].
Proof.
  intros Hto. split.
  - unfold Counted.synthesize, Counted.synthesize_edges. simpl. by rewrite Hto.
  - destruct (perlog_synthesize_shape transaction receipt) as (extra & _ & Hes & _).
    by rewrite Hes, Hto.
Qed.

(** C9: without a receiver the edge list of either revision is empty, so the
    contract nodes drawn for the logs are joined to nothing. *)
Theorem no_receiver_no_edges transaction receipt :
  Js.truthy (Receipt.to receipt) = None →
  (Counted.synthesize transaction receipt).2 = []
  ∧ (PerLog.synthesize transaction receipt).2 = [].
Proof. apply synthesize_edges_nil. Qed.

Lemma no_receiver_no_edges_witness :
  (Counted.synthesize Sample.one_ether Sample.creation).2 = []
  ∧ (PerLog.synthesize Sample.one_ether Sample.creation).2 = []
  ∧ length (Counted.synthesize Sample.one_ether Sample.creation).1 = 2.
Proof.
  destruct (no_receiver_no_edges Sample.one_ether Sample.creation eq_refl) as [? ?].
  split_and!; [done..|reflexivity].
Defined.

(** * C10: edges join nodes *)

(** C10: in either revision the source and the target of every edge are ids
    of nodes of the same run. *)
Theorem edges_join_nodes transaction receipt :
  (∀ e, e ∈ (Counted.synthesize transaction receipt).2 →
     Edge.source e ∈ Node.id <$> (Counted.synthesize transaction receipt).1
     ∧ Edge.target e ∈ Node.id <$> (Counted.synthesize transaction receipt).1)
  ∧ (∀ e, e ∈ (PerLog.synthesize transaction receipt).2 →
       Edge.source e ∈ Node.id <$> (PerLog.synthesize transaction receipt).1
       ∧ Edge.target e ∈ Node.id <$> (PerLog.synthesize transaction receipt).1).
Proof.
  split; intros e He.
  - rewrite synthesize_node_ids. unfold party_ids.
    destruct (Js.truthy (Receipt.to receipt)) as [to_|] eqn:Hto.
    + rewrite (synthesize_edges_eq _ _ _ Hto) in He. simpl.
      apply elem_of_cons in He as [->|He]; simpl.
      * split; [by left|]. right. by left.
      * apply list_elem_of_fmap in He as (k & -> & Hk). simpl.
        apply list_elem_of_filter in Hk as [_ Hk].
        split; [right; by left|].
        destruct (decide (k ∈ [lower (Receipt.from receipt); lower to_])) as [Hin|Hout].
        -- apply elem_of_cons in Hin as [->|Hin]; [by left|].
           apply list_elem_of_singleton in Hin as ->. right. by left.
        -- do 2 right. by apply list_elem_of_filter.
    + destruct (synthesize_edges_nil transaction receipt Hto) as [Hes _].
      rewrite Hes in He. by apply elem_of_nil in He.
  - destruct (perlog_synthesize_shape transaction receipt)
      as (extra & Hns & Hes & _ & Hextra).
    rewrite Hns, Hes in *. clear Hns Hes.
    destruct (Js.truthy (Receipt.to receipt)) as [to_|];
      [|by apply elem_of_nil in He].
    simpl in *. apply elem_of_cons in He as [->|He]; simpl.
    + split; [by left|]. right. by left.
    + apply elem_of_lookup_imap in He as (j & log & -> & Hlog). simpl.
      split; [right; by left|].
      destruct (decide (Log.address log ∈ [Receipt.from receipt; to_])) as [Hin|Hout].
      * apply elem_of_cons in Hin as [->|Hin]; [by left|].
        apply list_elem_of_singleton in Hin as ->. right. by left.
      * do 2 right. apply Hextra. split; [|done].
        apply list_elem_of_fmap_2. by eapply list_elem_of_lookup_2.
Qed.

(** * C5: the validator *)

Section Validator.

Lemma atom_matches_hex c :
  RegExp.atom_matches (RegExp.Class [("a", "f"); ("A", "F"); ("0", "9")]%char) c
  = is_hex c.
Proof. destruct c as [[] [] [] [] [] [] [] []]; reflexivity. Qed.

Lemma append_empty_r s : s +:+ "" = s.
Proof.
  induction s as [|c s IH]; [done|].
  change (String c (s +:+ "") = String c s). by rewrite IH.
Qed.

Lemma append_cons c a b : String c a +:+ b = String c (a +:+ b).
Proof. reflexivity. Qed.

Lemma consume_spec a n : ∀ s rest,
  RegExp.consume a n s = Some rest
  ↔ ∃ body, s = body +:+ rest
            ∧ String.length body = n
            ∧ Forall (λ c, RegExp.atom_matches a c = true) (list_ascii_of_string body).
Proof.
  induction n as [|n IH]; intros s rest; simpl.
  - split.
    + intros [= ->]. exists "". split_and!; [done..|constructor].
    + intros (body & -> & Hlen & _). by destruct body.
  - destruct s as [|c s].
    + split; [done|]. intros ([|c body] & Hs & Hlen & _); simplify_eq/=.
    + destruct (RegExp.atom_matches a c) eqn:Hc.
      * rewrite IH. split.
        -- intros (body & -> & Hlen & Hall). exists (String c body).
           split_and!; [reflexivity|simpl; by rewrite Hlen|by constructor].
        -- intros ([|c' body] & Hs & Hlen & Hall); [done|].
           rewrite append_cons in Hs. simplify_eq/=.
           apply Forall_cons in Hall as [_ Hall]. by exists body.
      * split; [done|]. intros ([|c' body] & Hs & Hlen & Hall); [done|].
        rewrite append_cons in Hs. simplify_eq/=.
        apply Forall_cons in Hall as [Hc' _]. congruence.
Qed.

Lemma consume_one a s :
  RegExp.consume a 1 s
  = match s with
    | String c rest => if RegExp.atom_matches a c then Some rest else None
    | EmptyString => None
    end.
Proof. by destruct s. Qed.

(** The pattern of the source accepts exactly the hashes of the spec. *)
Lemma hash_pattern_spec s :
  RegExp.test hash_pattern s = true ↔ well_formed_hash s.
Proof.
  unfold well_formed_hash, hash_pattern. cbn [RegExp.test RegExp.atom RegExp.times].
  rewrite consume_one. split.
  - destruct s as [|c0 s]; [done|]. cbn [RegExp.atom_matches].
    destruct (Ascii.eqb_spec c0 "0") as [->|]; [|done].
    rewrite consume_one.
    destruct s as [|c1 s]; [done|]. cbn [RegExp.atom_matches].
    destruct (Ascii.eqb_spec c1 "x") as [->|]; [|done].
    destruct (RegExp.consume _ 64 s) as [rest|] eqn:Hbody; [|done].
    intros ->%bool_decide_eq_true.
    apply consume_spec in Hbody as (body & -> & Hlen & Hall).
    exists body. rewrite append_empty_r. split_and!; [done..|].
    eapply Forall_impl; [exact Hall|].
    intros c Hc. rewrite <-atom_matches_hex. exact Hc.
  - intros (body & -> & Hlen & Hall).
    change ("0x" +:+ body) with (String "0" (String "x" body)).
    cbn [RegExp.atom_matches Ascii.eqb Bool.eqb]. rewrite consume_one.
    cbn [RegExp.atom_matches Ascii.eqb Bool.eqb].
    assert (RegExp.consume
              (RegExp.Class [("a", "f"); ("A", "F"); ("0", "9")]%char) 64 body
            = Some "") as ->; [|done].
    apply consume_spec. exists body. rewrite append_empty_r.
    split_and!; [done..|].
    eapply Forall_impl; [exact Hall|].
    intros c Hc. rewrite atom_matches_hex. exact Hc.
Qed.

Lemma well_formed_hash_nonempty s : well_formed_hash s → s ≠ "".
Proof. by intros (body & -> & _). Qed.

End Validator.

(** C5: the handler takes the input for the hash to analyse exactly when it
    is [0x] and then 64 hexadecimal characters of either case; any other input
    leaves the validation message, no hash to analyse and nothing of an earlier
    result, and the press of the button sends no request. *)
Theorem validator_accepts_exactly_hashes
    (synthesize : Transaction.t → Receipt.t → list Node.t * list Edge.t)
    (env : Env) (st : State) :
  let validated := ui (handleAnalyse (start st)).2 in
  (well_formed_hash (inputHash st) ↔ targetHash validated = Some (inputHash st))
  ∧ (well_formed_hash (inputHash st) → error validated = None)
  ∧ (¬ well_formed_hash (inputHash st) →
       error validated = Some Msg.bad_hash
       ∧ targetHash validated = None
       ∧ cleared validated
       ∧ requested (submit synthesize env (start st)).2 = []
       ∧ cleared (ui (submit synthesize env (start st)).2)).
Proof.
  intros validated. subst validated.
  destruct st as [input target info loading err ns es].
  destruct (RegExp.test hash_pattern input) eqn:Htest.
  - apply hash_pattern_spec in Htest as Hwf.
    pose proof (well_formed_hash_nonempty _ Hwf) as Hne.
    ui_run. rewrite Htest, bool_decide_eq_false_2 by done. ui_run. done.
  - assert (¬ well_formed_hash input) as Hbad.
    { rewrite <-hash_pattern_spec. congruence. }
    ui_run. rewrite Htest, andb_false_r. ui_run.
    split_and!; [done..|].
    intros _. case_decide; done.
Qed.

Lemma validator_witness :
  error (ui (handleAnalyse (start Sample.analysed)).2) = None
  ∧ requested
      (submit Counted.synthesize (Sample.env (Fulfilled None) (Fulfilled None))
         (start initial)).2 = [].
Proof.
  pose proof (validator_accepts_exactly_hashes Counted.synthesize
                (Sample.env (Fulfilled None) (Fulfilled None)) Sample.analysed)
    as (_ & Hok & _).
  pose proof (validator_accepts_exactly_hashes Counted.synthesize
                (Sample.env (Fulfilled None) (Fulfilled None)) initial)
    as (_ & _ & Hbad).
  split.
  - apply Hok. apply hash_pattern_spec. vm_compute. reflexivity.
  - apply Hbad. rewrite <-hash_pattern_spec. vm_compute. discriminate.
Defined.

(** * C6 and C7: errors *)

Section ErrorOutcomes.

Variable synthesize : Transaction.t → Receipt.t → list Node.t * list Edge.t.
Variable env : Env.
Variable st : State.

Lemma malformed_submission_clears :
  ¬ well_formed_hash (inputHash st) →
  let s := ui (submit synthesize env (start st)).2 in
  error s = Some Msg.bad_hash ∧ cleared s.
Proof.
  destruct st as [input target info loading err ns es]. cbn [inputHash].
  intros Hbad.
  assert (RegExp.test hash_pattern input = false) as Htest.
  { destruct (RegExp.test hash_pattern input) eqn:Htest; [|done].
    by apply hash_pattern_spec in Htest. }
  ui_run. rewrite Htest, andb_false_r. ui_run. case_decide; done.
Qed.

Lemma failed_submission_clears :
  well_formed_hash (inputHash st) →
  targetHash st ≠ Some (inputHash st) →
  ¬ (∃ url transaction receipt,
       Js.truthy (ALCHEMY_URL env) = Some url
       ∧ getTransaction (publicClient env) (inputHash st)
         = Fulfilled (Some transaction)
       ∧ getTransactionReceipt (publicClient env) (inputHash st)
         = Fulfilled (Some receipt)) →
  let s := ui (submit synthesize env (start st)).2 in
  is_Some (error s) ∧ cleared s.
Proof.
  destruct st as [input target info loading err ns es].
  destruct env as [url [getTx getRc rcFirst]].
  cbn [inputHash targetHash ALCHEMY_URL publicClient getTransaction
       getTransactionReceipt].
  intros Hwf Htarget Hfailed.
  pose proof (well_formed_hash_nonempty _ Hwf) as Hne.
  apply hash_pattern_spec in Hwf. ui_run.
  rewrite Hwf, bool_decide_eq_false_2 by done. cbn [negb andb]. ui_run.
  rewrite decide_False by done. ui_run.
  rewrite decide_False by done. ui_run.
  destruct url as [url|]; ui_run; [|by split].
  case_decide; ui_run; [by split|].
  destruct (getTx input) as [[tx|]|e1], (getRc input) as [[rc|]|e2]; ui_run;
    try (destruct Hfailed; by exists url, tx, rc);
    try destruct (rcFirst input); ui_run;
    try destruct (Thrown.instanceofError e1 && bool_decide (Thrown.name e1 = _));
    try destruct (Thrown.instanceofError e2 && bool_decide (Thrown.name e2 = _));
    ui_run; by split.
Qed.

Lemma failed_run_clears (hash : string) :
  let s := ui (fetchAndProcessTransaction synthesize env hash (start st)).2 in
  (Js.truthy (ALCHEMY_URL env) = None →
     error s = Some Msg.missing_url ∧ cleared s)
  ∧ (∀ url transaction receipt,
       Js.truthy (ALCHEMY_URL env) = Some url →
       getTransaction (publicClient env) hash = Fulfilled transaction →
       getTransactionReceipt (publicClient env) hash = Fulfilled receipt →
       transaction = None ∨ receipt = None →
       error s = Some Msg.info_not_found ∧ cleared s)
  ∧ (∀ url err,
       Js.truthy (ALCHEMY_URL env) = Some url →
       Promise_all (receiptSettlesFirst (publicClient env) hash)
         (getTransaction (publicClient env) hash)
         (getTransactionReceipt (publicClient env) hash) = Rejected err →
       error s
       = Some (if Thrown.instanceofError err
                  && bool_decide (Thrown.name err = Some "TransactionNotFoundError")
               then Msg.not_found else Msg.unexpected)
       ∧ cleared s).
Proof.
  destruct st as [input target info loading err0 ns es].
  destruct env as [url0 [getTx getRc rcFirst]]. ui_run.
  destruct url0 as [url0|]; ui_run; [|by split_and!].
  case_decide; ui_run; [by split_and!|].
  destruct (getTx hash) as [[tx|]|e1], (getRc hash) as [[rc|]|e2]; ui_run;
    try destruct (synthesize tx rc) as [newNodes newEdges];
    try destruct (rcFirst hash); ui_run.
  all: split_and!; [done| |].
  all: try (intros ? ? ? _ ? ? [?|?]; by simplify_eq).
  all: try (intros ? ? _ ?; by simplify_eq).
  all: intros ? err _ [= <-].
  all: by destruct (Thrown.instanceofError _ && bool_decide _).
Qed.

Lemma shown_errors_are_cleared :
  (∀ s, s ∈ painted (submit synthesize env (start st)).2 →
        is_Some (error s) → cleared s)
  ∧ (∀ hash,
       let s := ui (fetchAndProcessTransaction synthesize env hash (start st)).2 in
       is_Some (error s) →
       cleared s
       ∧ error s ∈ Some <$> [Msg.missing_url; Msg.info_not_found; Msg.not_found;
                             Msg.unexpected]).
Proof.
  destruct st as [input target info loading err ns es].
  destruct env as [url [getTx getRc rcFirst]].
  split.
  - intros [input' target' info' loading' err' ns' es']. ui_run.
    destruct (negb (bool_decide (input = "")) && RegExp.test hash_pattern input);
      ui_run.
    + case_decide; ui_run; [painted_cases|].
      case_decide; ui_run; [painted_cases|].
      destruct url as [url|]; ui_run; [|painted_cases].
      case_decide; ui_run; [painted_cases|].
      destruct (getTx input) as [[tx|]|e1], (getRc input) as [[rc|]|e2]; ui_run;
        try destruct (synthesize tx rc) as [newNodes newEdges];
        try destruct (rcFirst input); ui_run;
        try destruct (Thrown.instanceofError e1 && bool_decide (Thrown.name e1 = _));
        try destruct (Thrown.instanceofError e2 && bool_decide (Thrown.name e2 = _));
        ui_run; painted_cases.
    + case_decide; ui_run; painted_cases.
  - intros hash. ui_run.
    destruct url as [url|]; ui_run.
    2:{ intros _. split; [done|]. set_solver. }
    case_decide; ui_run.
    { intros _. split; [done|]. set_solver. }
    destruct (getTx hash) as [[tx|]|e1], (getRc hash) as [[rc|]|e2]; ui_run;
      try destruct (synthesize tx rc) as [newNodes newEdges];
      try destruct (rcFirst hash); ui_run;
      try destruct (Thrown.instanceofError e1 && bool_decide (Thrown.name e1 = _));
      try destruct (Thrown.instanceofError e2 && bool_decide (Thrown.name e2 = _));
      ui_run; intros [? [=]]; (split; [done|set_solver]).
Qed.

End ErrorOutcomes.

(** C6: every error outcome of a submission ends with the summary, the nodes
    and the edges cleared, whatever the state before. By cause: an input that
    is no hash ends with the validation message and cleared fields; a
    well-formed new hash whose fetch does not bring back both values ends
    with an error and cleared fields; and a run of the effect ends cleared
    with the configuration message when the endpoint is missing, with the
    no-information message when a request is fulfilled with nothing, and with
    the not-found or the generic message when a request is rejected. Besides,
    no state painted in the course of a submission shows an error next to
    anything of an earlier analysis. *)
Theorem errors_clear_results
    (synthesize : Transaction.t → Receipt.t → list Node.t * list Edge.t)
    (env : Env) (st : State) :
  let submitted := ui (submit synthesize env (start st)).2 in
  let ran hash := ui (fetchAndProcessTransaction synthesize env hash (start st)).2 in
  let found hash :=
    ∃ url transaction receipt,
      Js.truthy (ALCHEMY_URL env) = Some url
      ∧ getTransaction (publicClient env) hash = Fulfilled (Some transaction)
      ∧ getTransactionReceipt (publicClient env) hash = Fulfilled (Some receipt) in
  (¬ well_formed_hash (inputHash st) →
     error submitted = Some Msg.bad_hash ∧ cleared submitted)
  ∧ (well_formed_hash (inputHash st) →
     targetHash st ≠ Some (inputHash st) →
     ¬ found (inputHash st) →
     is_Some (error submitted) ∧ cleared submitted)
  ∧ (∀ hash,
       (Js.truthy (ALCHEMY_URL env) = None →
          error (ran hash) = Some Msg.missing_url ∧ cleared (ran hash))
       ∧ (∀ url transaction receipt,
            Js.truthy (ALCHEMY_URL env) = Some url →
            getTransaction (publicClient env) hash = Fulfilled transaction →
            getTransactionReceipt (publicClient env) hash = Fulfilled receipt →
            transaction = None ∨ receipt = None →
            error (ran hash) = Some Msg.info_not_found ∧ cleared (ran hash))
       ∧ (∀ url err,
            Js.truthy (ALCHEMY_URL env) = Some url →
            Promise_all (receiptSettlesFirst (publicClient env) hash)
              (getTransaction (publicClient env) hash)
              (getTransactionReceipt (publicClient env) hash) = Rejected err →
            error (ran hash)
            = Some (if Thrown.instanceofError err
                       && bool_decide (Thrown.name err = Some "TransactionNotFoundError")
                    then Msg.not_found else Msg.unexpected)
            ∧ cleared (ran hash)))
  ∧ (∀ s, s ∈ painted (submit synthesize env (start st)).2 →
          is_Some (error s) → cleared s)
  ∧ (∀ hash,
       is_Some (error (ran hash)) →
       cleared (ran hash)
       ∧ error (ran hash) ∈ Some <$> [Msg.missing_url; Msg.info_not_found;
                                      Msg.not_found; Msg.unexpected]).
Proof.
  intros submitted ran found.
  destruct (shown_errors_are_cleared synthesize env st) as [Hpainted Hran].
  split_and!.
  - apply malformed_submission_clears.
  - apply failed_submission_clears.
  - intros hash. apply failed_run_clears.
  - exact Hpainted.
  - exact Hran.
Qed.

Lemma errors_clear_results_witness :
  let mistyped :=
    ui (submit Counted.synthesize Sample.both_found (start Sample.mistyped)).2 in
  let missing :=
    ui (submit Counted.synthesize Sample.receipt_only (start Sample.retyped)).2 in
  (error mistyped = Some Msg.bad_hash ∧ cleared mistyped)
  ∧ (is_Some (error missing) ∧ cleared missing).
Proof.
  intros mistyped missing.
  destruct (errors_clear_results Counted.synthesize Sample.both_found Sample.mistyped)
    as (Hbad & _).
  destruct (errors_clear_results Counted.synthesize Sample.receipt_only Sample.retyped)
    as (_ & Hfailed & _).
  split.
  - apply Hbad. rewrite <-hash_pattern_spec. by vm_compute.
  - apply Hfailed.
    + apply hash_pattern_spec. by vm_compute.
    + by vm_compute.
    + intros (url & transaction & receipt & _ & Htx & _). by vm_compute in Htx.
Defined.

(** C7: when the receipt request succeeds and the transaction request fails
    as not found, the run of the effect ends with the not-found message, no
    summary, no node and no edge, and no state it painted has a node or an
    edge: nothing is built from the receipt alone. *)
Theorem not_found_leaves_no_graph
    (synthesize : Transaction.t → Receipt.t → list Node.t * list Edge.t)
    (env : Env) (st : State) (hash url : string)
    (receipt : option Receipt.t) (err : Thrown.t) :
  Js.truthy (ALCHEMY_URL env) = Some url →
  getTransactionReceipt (publicClient env) hash = Fulfilled receipt →
  getTransaction (publicClient env) hash = Rejected err →
  Thrown.instanceofError err = true →
  Thrown.name err = Some "TransactionNotFoundError" →
  let w := (fetchAndProcessTransaction synthesize env hash (start st)).2 in
  error (ui w) = Some Msg.not_found
  ∧ cleared (ui w)
  ∧ isLoading (ui w) = false
  ∧ Forall (λ s, nodes s = [] ∧ edges s = []) (painted w)
  ∧ requested w = [GetTransaction hash; GetTransactionReceipt hash].
Proof.
  destruct st as [input target info loading err0 ns es].
  destruct env as [url0 [getTx getRc rcFirst]].
  intros Hurl Hrc Htx Herr Hname. ui_run.
  rewrite Hurl, Htx, Hrc, Herr, Hname. ui_run.
  rewrite bool_decide_eq_true_2 by done. ui_run.
  split_and!; [done..| |done]. by repeat constructor.
Qed.

Lemma not_found_leaves_no_graph_witness :
  let w := (fetchAndProcessTransaction Counted.synthesize Sample.receipt_only
              Sample.hash (start Sample.analysed)).2 in
  error (ui w) = Some Msg.not_found ∧ nodes (ui w) = [] ∧ edges (ui w) = [].
Proof.
  destruct (not_found_leaves_no_graph Counted.synthesize Sample.receipt_only
              Sample.analysed Sample.hash _ _ _ eq_refl eq_refl eq_refl eq_refl eq_refl)
    as (Herr & (_ & Hns & Hes) & _).
  done.
Defined.

(** * C8: contract creation *)

(** C8: without a receiver neither revision draws an edge out of the sender,
    and once both requests have succeeded the summary shows the creation
    notice in the place of the receiver address. *)
Theorem creation_shows_notice transaction receipt :
  Js.truthy (Receipt.to receipt) = None →
  (∀ e, e ∈ (Counted.synthesize transaction receipt).2 →
        Edge.source e ≠ lower (Receipt.from receipt))
  ∧ (∀ e, e ∈ (PerLog.synthesize transaction receipt).2 →
          Edge.source e ≠ Receipt.from receipt)
  ∧ ∀ (synthesize : Transaction.t → Receipt.t → list Node.t * list Edge.t)
      (env : Env) (st : State) (hash url : string),
      Js.truthy (ALCHEMY_URL env) = Some url →
      getTransaction (publicClient env) hash = Fulfilled (Some transaction) →
      getTransactionReceipt (publicClient env) hash = Fulfilled (Some receipt) →
      ∃ shown,
        summary (ui (fetchAndProcessTransaction synthesize env hash (start st)).2)
        = Some shown
        ∧ shown_to shown = Msg.creation.
Proof.
  intros Hto. destruct (synthesize_edges_nil transaction receipt Hto) as [Hc Hp].
  rewrite Hc, Hp. split_and!; [by intros e ?%elem_of_nil..|].
  intros synthesize env st hash url Hurl Htx Hrc.
  destruct st as [input target info loading err0 ns es].
  destruct env as [url0 [getTx getRc rcFirst]].
  ui_run. rewrite Hurl, Htx, Hrc. ui_run.
  destruct (synthesize transaction receipt) as [newNodes newEdges]. ui_run.
  eexists. split; [reflexivity|]. simpl. cbn [TxInfo.to]. by rewrite Hto.
Qed.

Lemma creation_shows_notice_witness :
  ∃ shown,
    summary (ui (fetchAndProcessTransaction Counted.synthesize
                   (Sample.env (Fulfilled (Some Sample.one_ether))
                      (Fulfilled (Some Sample.creation)))
                   Sample.hash (start initial)).2) = Some shown
    ∧ shown_to shown = "N/A (Contract Creation)".
Proof.
  destruct (creation_shows_notice Sample.one_ether Sample.creation eq_refl)
    as (_ & _ & Hsummary).
  apply (Hsummary Counted.synthesize
           (Sample.env (Fulfilled (Some Sample.one_ether))
              (Fulfilled (Some Sample.creation)))
           initial Sample.hash "https://base-sepolia.example/v2/key");
    reflexivity.
Defined.

Lemma edges_join_nodes_witness :
  Counted.contract_edge Sample.receiver (lower Sample.contractB)
    ∈ (Counted.synthesize Sample.one_ether Sample.transfer).2
  ∧ lower Sample.receiver
      ∈ Node.id <$> (Counted.synthesize Sample.one_ether Sample.transfer).1
  ∧ lower Sample.contractB
      ∈ Node.id <$> (Counted.synthesize Sample.one_ether Sample.transfer).1.
Proof.
  assert (Counted.contract_edge Sample.receiver (lower Sample.contractB)
            ∈ (Counted.synthesize Sample.one_ether Sample.transfer).2) as He.
  { vm_compute. do 2 right. left. }
  split; [exact He|].
  destruct (edges_join_nodes Sample.one_ether Sample.transfer) as [Hcounted _].
  exact (Hcounted _ He).
Defined.

(** * Further properties of the page *)

(** X1: the reset handler leaves the initial state whatever came before,
    except that a run in flight stays marked as loading; the effect that
    follows sends no request, and with no run in flight the result section is
    hidden and the chart shows its placeholder. *)
Theorem reset_restores_initial
    (synthesize : Transaction.t → Receipt.t → list Node.t * list Edge.t)
    (env : Env) (w : World) :
  let after := ui (reset synthesize env w).2 in
  after = {| inputHash := ""; targetHash := None; txInfo := None;
             isLoading := isLoading (ui w); error := None;
             nodes := []; edges := [] |}
  ∧ requested (reset synthesize env w).2 = requested w
  ∧ analyse_disabled after = true
  ∧ chart after = FlowChart.Placeholder
  ∧ result_section_shown after = isLoading (ui w).
Proof.
  destruct w as [[input target info loading err ns es] ps rs].
  unfold reset, analyse_disabled, result_section_shown, chart. ui_run.
  case_decide; ui_run; split_and!; try done; by destruct loading.
Qed.

(** X2: pressing analyse again on the hash that is already the target runs
    no effect: no request is sent and the state is as before but for the
    error, which is removed. After a failed fetch the same hash is therefore
    not fetched again. *)
Theorem resubmission_sends_nothing
    (synthesize : Transaction.t → Receipt.t → list Node.t * list Edge.t)
    (env : Env) (st : State) :
  well_formed_hash (inputHash st) →
  targetHash st = Some (inputHash st) →
  let w := (submit synthesize env (start st)).2 in
  requested w = []
  ∧ ui w = {| inputHash := inputHash st; targetHash := targetHash st;
              txInfo := txInfo st; isLoading := isLoading st; error := None;
              nodes := nodes st; edges := edges st |}.
Proof.
  destruct st as [input target info loading err ns es]. cbn [inputHash targetHash].
  intros Hwf ->. pose proof (well_formed_hash_nonempty _ Hwf) as Hne.
  apply hash_pattern_spec in Hwf. ui_run.
  rewrite Hwf, bool_decide_eq_false_2 by done. cbn [negb andb]. ui_run.
  rewrite decide_True by done. done.
Qed.

Lemma resubmission_sends_nothing_witness :
  let failed :=
    {| inputHash := Sample.hash; targetHash := Some Sample.hash; txInfo := None;
       isLoading := false; error := Some Msg.unexpected; nodes := []; edges := [] |} in
  requested (submit Counted.synthesize Sample.both_found (start failed)).2 = []
  ∧ txInfo (ui (submit Counted.synthesize Sample.both_found (start failed)).2) = None.
Proof.
  intros failed.
  destruct (resubmission_sends_nothing Counted.synthesize Sample.both_found failed)
    as [Hreq Hui].
  - apply hash_pattern_spec. by vm_compute.
  - reflexivity.
  - split; [exact Hreq|]. by rewrite Hui.
Defined.

(** X3: a run of the effect ends without an error exactly when the endpoint
    is configured and both requests are fulfilled with a value; the state
    then holds the synthesized graph, the number of logs of the receipt, and
    a summary to show. *)
Theorem fetch_succeeds_iff_both_found
    (synthesize : Transaction.t → Receipt.t → list Node.t * list Edge.t)
    (env : Env) (st : State) (hash : string) :
  let w := (fetchAndProcessTransaction synthesize env hash (start st)).2 in
  (error (ui w) = None
   ↔ ∃ url transaction receipt,
       Js.truthy (ALCHEMY_URL env) = Some url
       ∧ getTransaction (publicClient env) hash = Fulfilled (Some transaction)
       ∧ getTransactionReceipt (publicClient env) hash = Fulfilled (Some receipt))
  ∧ ∀ transaction receipt,
      error (ui w) = None →
      getTransaction (publicClient env) hash = Fulfilled (Some transaction) →
      getTransactionReceipt (publicClient env) hash = Fulfilled (Some receipt) →
      nodes (ui w) = (synthesize transaction receipt).1
      ∧ edges (ui w) = (synthesize transaction receipt).2
      ∧ TxInfo.logsCount <$> txInfo (ui w) = Some (length (Receipt.logs receipt))
      ∧ is_Some (summary (ui w)).
Proof.
  destruct st as [input target info loading err ns es].
  destruct env as [url [getTx getRc rcFirst]]. ui_run.
  destruct url as [url|]; ui_run.
  2:{ split; [|done]. split; [done|]. by intros (? & ? & ? & ? & _). }
  case_decide; ui_run.
  { split; [|done]. split; [done|]. by intros (? & ? & ? & ? & _). }
  destruct (getTx hash) as [[tx|]|e1], (getRc hash) as [[rc|]|e2]; ui_run;
    try destruct (synthesize tx rc) as [newNodes newEdges] eqn:Hsyn;
    try destruct (rcFirst hash); ui_run;
    try destruct (Thrown.instanceofError e1 && bool_decide (Thrown.name e1 = _));
    try destruct (Thrown.instanceofError e2 && bool_decide (Thrown.name e2 = _));
    ui_run;
    try (split; [|done]; split; [done|]; by intros (? & ? & ? & ? & ? & ?)).
  all: split.
  all: try (split; [|done]; intros _; by exists url, tx, rc).
  all: intros tx' rc' _ [= <-] [= <-]; rewrite Hsyn; by split_and!.
Qed.

Lemma fetch_succeeds_iff_both_found_witness :
  let w := (fetchAndProcessTransaction Counted.synthesize Sample.both_found
              Sample.hash (start initial)).2 in
  nodes (ui w) = (Counted.synthesize Sample.one_ether Sample.transfer).1
  ∧ edges (ui w) = (Counted.synthesize Sample.one_ether Sample.transfer).2.
Proof.
  intros w.
  destruct (fetch_succeeds_iff_both_found Counted.synthesize Sample.both_found
              initial Sample.hash) as [_ Hgraph].
  destruct (Hgraph Sample.one_ether Sample.transfer) as (Hns & Hes & _);
    [by vm_compute|reflexivity|reflexivity|].
  exact (conj Hns Hes).
Defined.

(** X4: with no endpoint configured a run of the effect sends no request and
    paints nothing on the way: it ends with the configuration message, no
    loading mark and nothing of an earlier analysis. *)
Theorem missing_endpoint_sends_nothing
    (synthesize : Transaction.t → Receipt.t → list Node.t * list Edge.t)
    (env : Env) (st : State) (hash : string) :
  Js.truthy (ALCHEMY_URL env) = None →
  let w := (fetchAndProcessTransaction synthesize env hash (start st)).2 in
  requested w = []
  ∧ painted w = []
  ∧ error (ui w) = Some Msg.missing_url
  ∧ isLoading (ui w) = false
  ∧ cleared (ui w).
Proof.
  destruct st as [input target info loading err ns es].
  destruct env as [url client]. intros Hurl. ui_run. rewrite Hurl. by ui_run.
Qed.

Lemma missing_endpoint_sends_nothing_witness :
  let env := {| ALCHEMY_URL := None;
                publicClient := Sample.client (Fulfilled (Some Sample.one_ether))
                                  (Fulfilled (Some Sample.transfer)) |} in
  let w := (fetchAndProcessTransaction Counted.synthesize env Sample.hash
              (start Sample.analysed)).2 in
  requested w = [] ∧ nodes (ui w) = [].
Proof.
  intros env w.
  destruct (missing_endpoint_sends_nothing Counted.synthesize env Sample.analysed
              Sample.hash eq_refl) as (Hreq & _ & _ & _ & _ & Hns & _).
  by split.
Defined.

(** X5: every run of the effect ends with the loading mark removed, and what
    it paints while the requests are out is marked as loading, keeps the
    analyse button disabled and shows nothing of an earlier analysis: no
    second run can be started from the page while one is in flight. *)
Theorem loading_mark_brackets_the_run
    (synthesize : Transaction.t → Receipt.t → list Node.t * list Edge.t)
    (env : Env) (st : State) (hash : string) :
  let w := (fetchAndProcessTransaction synthesize env hash (start st)).2 in
  isLoading (ui w) = false
  ∧ Forall (λ s, isLoading s = true ∧ analyse_disabled s = true
                 ∧ error s = None ∧ cleared s) (painted w).
Proof.
  destruct st as [input target info loading err ns es].
  destruct env as [url [getTx getRc rcFirst]]. unfold analyse_disabled. ui_run.
  destruct url as [url|]; ui_run; [|by split].
  case_decide; ui_run; [by split|].
  destruct (getTx hash) as [[tx|]|e1], (getRc hash) as [[rc|]|e2]; ui_run;
    try destruct (synthesize tx rc) as [newNodes newEdges];
    try destruct (rcFirst hash); ui_run;
    try destruct (Thrown.instanceofError e1 && bool_decide (Thrown.name e1 = _));
    try destruct (Thrown.instanceofError e2 && bool_decide (Thrown.name e2 = _));
    ui_run; (split; [done|]); by repeat constructor.
Qed.

Section Requests.

Lemma submit_requests
    (synthesize : Transaction.t → Receipt.t → list Node.t * list Edge.t)
    (env : Env) (st : State) :
  let sent := requested (submit synthesize env (start st)).2 in
  let due := well_formed_hash (inputHash st)
             ∧ targetHash st ≠ Some (inputHash st)
             ∧ is_Some (Js.truthy (ALCHEMY_URL env)) in
  (due → sent = [GetTransaction (inputHash st); GetTransactionReceipt (inputHash st)])
  ∧ (¬ due → sent = []).
Proof.
  destruct st as [input target info loading err ns es].
  destruct env as [url [getTx getRc rcFirst]]. cbn [inputHash targetHash ALCHEMY_URL].
  destruct (RegExp.test hash_pattern input) eqn:Htest.
  - apply hash_pattern_spec in Htest as Hwf.
    pose proof (well_formed_hash_nonempty _ Hwf) as Hne.
    ui_run. rewrite Htest, bool_decide_eq_false_2 by done. cbn [negb andb]. ui_run.
    case_decide as Htarget; ui_run.
    { split; [|done]. intros (_ & Hneq & _). by destruct Hneq. }
    rewrite decide_False by done. ui_run.
    destruct url as [url|]; ui_run.
    2:{ split; [|done]. by intros (_ & _ & [? [=]]). }
    case_decide; ui_run.
    { split; [|done]. by intros (_ & _ & [? [=]]). }
    destruct (getTx input) as [[tx|]|e1], (getRc input) as [[rc|]|e2]; ui_run;
      try destruct (synthesize tx rc) as [newNodes newEdges];
      try destruct (rcFirst input); ui_run;
      try destruct (Thrown.instanceofError e1 && bool_decide (Thrown.name e1 = _));
      try destruct (Thrown.instanceofError e2 && bool_decide (Thrown.name e2 = _));
      ui_run; (split; [done|]); intros Hdue; destruct Hdue;
      (split_and!; [done|congruence|by eexists]).
  - assert (¬ well_formed_hash input) as Hbad.
    { rewrite <-hash_pattern_spec. congruence. }
    ui_run. rewrite Htest, andb_false_r. ui_run.
    split; [by intros [? _]|]. intros _. case_decide; done.
Qed.

End Requests.

(** X6: a press of the analyse button sends requests exactly when the button
    is enabled (no run in flight, the field not empty), the input is a
    well-formed hash other than the current target, and the endpoint is
    configured; it then sends the two requests for that hash and no other.
    A press of the disabled button changes nothing. *)
Theorem submission_requests
    (synthesize : Transaction.t → Receipt.t → list Node.t * list Edge.t)
    (env : Env) (st : State) :
  let sent := requested (press_analyse synthesize env (start st)).2 in
  let due := analyse_disabled st = false
             ∧ well_formed_hash (inputHash st)
             ∧ targetHash st ≠ Some (inputHash st)
             ∧ is_Some (Js.truthy (ALCHEMY_URL env)) in
  (due → sent = [GetTransaction (inputHash st); GetTransactionReceipt (inputHash st)])
  ∧ (¬ due → sent = [])
  ∧ (analyse_disabled st = true →
     (press_analyse synthesize env (start st)).2 = start st).
Proof.
  intros sent due. subst sent due.
  pose proof (submit_requests synthesize env st) as [Hdue Hnot].
  unfold press_analyse, mbind, UI_bind, current, mret, UI_ret.
  cbn [start ui fst snd].
  destruct (analyse_disabled st) eqn:Hdisabled.
  - split_and!; [by intros [? _]|done..].
  - split_and!; [|tauto|done]. intros (_ & ? & ? & ?). apply Hdue. by split_and!.
Qed.

Lemma submission_requests_witness :
  requested (press_analyse Counted.synthesize Sample.both_found
               (start Sample.retyped)).2
  = [GetTransaction Sample.other_hash; GetTransactionReceipt Sample.other_hash]
  ∧ (press_analyse Counted.synthesize Sample.both_found
       (start Sample.loading_retyped)).2 = start Sample.loading_retyped.
Proof.
  destruct (submission_requests Counted.synthesize Sample.both_found Sample.retyped)
    as [Hdue _].
  destruct (submission_requests Counted.synthesize Sample.both_found
              Sample.loading_retyped) as (_ & _ & Hdisabled).
  split.
  - apply Hdue. split_and!.
    + reflexivity.
    + apply hash_pattern_spec. by vm_compute.
    + by vm_compute.
    + by eexists.
  - by apply Hdisabled.
Defined.

(** X7: the not-found message is shown only for a rejection that is an
    [Error] named TransactionNotFoundError; a receipt request rejected under
    any other name, while the transaction request is fulfilled, ends in the
    generic message. *)
Theorem not_found_message_only_for_named_error
    (synthesize : Transaction.t → Receipt.t → list Node.t * list Edge.t)
    (env : Env) (st : State) (hash : string) :
  let w := (fetchAndProcessTransaction synthesize env hash (start st)).2 in
  (error (ui w) = Some Msg.not_found →
     ∃ err, (getTransaction (publicClient env) hash = Rejected err
             ∨ getTransactionReceipt (publicClient env) hash = Rejected err)
            ∧ Thrown.instanceofError err = true
            ∧ Thrown.name err = Some "TransactionNotFoundError")
  ∧ ∀ transaction err,
      is_Some (Js.truthy (ALCHEMY_URL env)) →
      getTransaction (publicClient env) hash = Fulfilled transaction →
      getTransactionReceipt (publicClient env) hash = Rejected err →
      Thrown.name err ≠ Some "TransactionNotFoundError" →
      error (ui w) = Some Msg.unexpected.
Proof.
  destruct st as [input target info loading err0 ns es].
  destruct env as [url [getTx getRc rcFirst]]. ui_run.
  destruct url as [url|]; ui_run.
  2:{ split; [done|]. by intros ? ? [? [=]]. }
  case_decide; ui_run.
  { split; [done|]. by intros ? ? [? [=]]. }
  destruct (getTx hash) as [[tx|]|e1], (getRc hash) as [[rc|]|e2]; ui_run;
    try destruct (synthesize tx rc) as [newNodes newEdges];
    try destruct (rcFirst hash); ui_run;
    try destruct (Thrown.instanceofError e1) eqn:He1;
    try destruct (Thrown.instanceofError e2) eqn:He2;
    try destruct (bool_decide (Thrown.name e1 = _)) eqn:Hn1;
    try destruct (bool_decide (Thrown.name e2 = _)) eqn:Hn2;
    cbn [andb]; ui_run;
    try apply bool_decide_eq_true in Hn1;
    try apply bool_decide_eq_true in Hn2;
    (split; [try done; intros _; (by exists e1; auto) || (by exists e2; auto)|]);
    try done; intros ? ? _ ? ?; simplify_eq; done.
Qed.

Lemma not_found_message_only_for_named_error_witness :
  error (ui (fetchAndProcessTransaction Counted.synthesize Sample.receipt_missing
               Sample.hash (start initial)).2) = Some Msg.unexpected.
Proof.
  destruct (not_found_message_only_for_named_error Counted.synthesize
              Sample.receipt_missing initial Sample.hash) as [_ Hother].
  eapply Hother; [by eexists|reflexivity|reflexivity|by vm_compute].
Defined.

Section Chart.

Lemma counted_nodes_nonempty transaction receipt :
  (Counted.synthesize transaction receipt).1 ≠ [].
Proof.
  intros Hnil. pose proof (synthesize_node_ids transaction receipt) as Hids.
  rewrite Hnil in Hids. discriminate Hids.
Qed.

Lemma perlog_nodes_nonempty transaction receipt :
  (PerLog.synthesize transaction receipt).1 ≠ [].
Proof.
  destruct (perlog_synthesize_shape transaction receipt) as (extra & -> & _).
  discriminate.
Qed.

Lemma chart_after_run
    (synthesize : Transaction.t → Receipt.t → list Node.t * list Edge.t)
    (env : Env) (st : State) (hash : string) :
  (∀ transaction receipt, (synthesize transaction receipt).1 ≠ []) →
  let s := ui (fetchAndProcessTransaction synthesize env hash (start st)).2 in
  (is_Some (error s) → chart s = FlowChart.Placeholder)
  ∧ (error s = None →
       nodes s ≠ [] ∧ chart s = FlowChart.ReactFlow (nodes s) (edges s) true).
Proof.
  intros Hne.
  assert (∀ ns es, ns ≠ [] →
            FlowChart.FlowChart ns es = FlowChart.ReactFlow ns es true) as Hflow.
  { intros [|n ns'] es' ?; [done|].
    unfold FlowChart.FlowChart, FlowChart.FlowContent.
    rewrite decide_False by done.
    rewrite bool_decide_eq_true_2 by (simpl; lia). done. }
  destruct st as [input target info loading err ns es].
  destruct env as [url [getTx getRc rcFirst]]. unfold chart. ui_run.
  destruct url as [url|]; ui_run; [|by split].
  case_decide; ui_run; [by split|].
  destruct (getTx hash) as [[tx|]|e1], (getRc hash) as [[rc|]|e2]; ui_run;
    try (pose proof (Hne tx rc) as Hnodes;
         destruct (synthesize tx rc) as [newNodes newEdges]);
    try destruct (rcFirst hash); ui_run;
    try destruct (Thrown.instanceofError e1 && bool_decide (Thrown.name e1 = _));
    try destruct (Thrown.instanceofError e2 && bool_decide (Thrown.name e2 = _));
    ui_run; try (by split).
  all: split; [by intros [? [=]]|]; intros _; split; [done|]; by apply Hflow.
Qed.

End Chart.

(** X8: the chart follows the outcome of a run, in either revision: it shows
    its placeholder after every run that ends in an error, and after a run
    that ends without one it draws the synthesized nodes and edges, which
    are never empty since the sender always has a node, and fits the view. *)
Theorem chart_follows_outcome (env : Env) (st : State) (hash : string) :
  let counted :=
    ui (fetchAndProcessTransaction Counted.synthesize env hash (start st)).2 in
  let perlog :=
    ui (fetchAndProcessTransaction PerLog.synthesize env hash (start st)).2 in
  (is_Some (error counted) → chart counted = FlowChart.Placeholder)
  ∧ (error counted = None →
       nodes counted ≠ []
       ∧ chart counted = FlowChart.ReactFlow (nodes counted) (edges counted) true)
  ∧ (is_Some (error perlog) → chart perlog = FlowChart.Placeholder)
  ∧ (error perlog = None →
       nodes perlog ≠ []
       ∧ chart perlog = FlowChart.ReactFlow (nodes perlog) (edges perlog) true).
Proof.
  intros counted perlog.
  destruct (chart_after_run Counted.synthesize env st hash counted_nodes_nonempty).
  destruct (chart_after_run PerLog.synthesize env st hash perlog_nodes_nonempty).
  by split_and!.
Qed.

Lemma chart_follows_outcome_witness :
  chart (ui (fetchAndProcessTransaction Counted.synthesize Sample.receipt_only
               Sample.hash (start Sample.analysed)).2) = FlowChart.Placeholder.
Proof.
  destruct (chart_follows_outcome Sample.receipt_only Sample.analysed Sample.hash)
    as (Herr & _).
  apply Herr. vm_compute. by eexists.
Defined.

(** * Further properties of the synthesizers *)

Section Frequencies.

(** How many logs an address emitted, letter case put aside. *)
Local Abbreviation emitted k logs :=
  (length (filter (λ log, lower (Log.address log) = k) logs)).

Lemma count_log_loop logs k : ∀ index (m : gmap string nat),
  Js.forEach_from Counted.count_log index logs m !! k
  = match emitted k logs with
    | O => m !! k
    | S n => Some (default 0 (m !! k) + S n)
    end.
Proof.
  induction logs as [|log logs IH]; intros index m; [done|].
  cbn [Js.forEach_from]. rewrite IH, filter_cons. unfold Counted.count_log.
  case_decide as Hk.
  - subst k. rewrite lookup_insert_eq. simpl.
    destruct (emitted _ logs); f_equal; lia.
  - rewrite lookup_insert_ne by done. done.
Qed.

Lemma sum_indicator (U : list string) (k : string) :
  NoDup U → k ∈ U →
  sum_list ((λ k', if decide (k = k') then 1 else 0) <$> U) = 1.
Proof.
  induction 1 as [|k' U Hk' _ IH]; intros Hk; [by apply elem_of_nil in Hk|].
  rewrite fmap_cons. cbn [sum_list]. case_decide as Heq.
  - subst k'. f_equal.
    clear IH Hk. induction U as [|u U IH]; [done|].
    rewrite fmap_cons. cbn [sum_list].
    rewrite decide_False by (intros ->; apply Hk'; by left).
    apply IH. intros ?. apply Hk'. by right.
  - apply IH. apply elem_of_cons in Hk as [->|Hk]; done.
Qed.

Lemma sum_emitted (U : list string) logs :
  NoDup U →
  (∀ log, log ∈ logs → lower (Log.address log) ∈ U) →
  sum_list ((λ k, emitted k logs) <$> U) = length logs.
Proof.
  intros HU. induction logs as [|log logs IH]; intros Hin.
  - clear Hin HU. induction U as [|u U IHU]; [done|].
    rewrite fmap_cons. cbn [sum_list]. rewrite IHU. reflexivity.
  - pose proof (sum_indicator U (lower (Log.address log)) HU
                  (Hin log ltac:(by left))) as Hone.
    specialize (IH (λ l Hl, Hin l ltac:(by right))).
    simpl length. rewrite <-IH, <-Nat.add_1_l, <-Hone.
    clear IH Hin HU Hone. induction U as [|u U IHU]; [done|].
    rewrite !fmap_cons. cbn [sum_list]. rewrite IHU, filter_cons.
    repeat case_decide; simplify_eq; simpl; lia.
Qed.

End Frequencies.

(** X9: the frequency table of the counting revision holds, for every
    lowercased address, the number of logs that address emitted, and holds no
    entry for an address that emitted none. *)
Theorem logCounts_counts_logs (logs : list Log.t) (k : string) :
  let emitted := length (filter (λ log, lower (Log.address log) = k) logs) in
  default 0 (Counted.logCounts logs !! k) = emitted
  ∧ (Counted.logCounts logs !! k = None ↔ emitted = 0).
Proof.
  intros emitted. unfold Counted.logCounts, Js.forEach.
  rewrite count_log_loop, lookup_empty. fold emitted.
  destruct emitted; simpl; [done|]. split; [done|]. split; [done|lia].
Qed.

(** X10: the counts of the frequency table, taken over the distinct
    lowercased log addresses, add up to the number of logs of the receipt,
    which is the number the summary shows. *)
Theorem logCounts_add_up (logs : list Log.t) :
  sum_list ((λ k, default 0 (Counted.logCounts logs !! k))
              <$> Counted.uniqueLogAddresses logs)
  = length logs.
Proof.
  rewrite <-(sum_emitted (Counted.uniqueLogAddresses logs) logs).
  - f_equal. apply list_fmap_ext. intros _ k _.
    unfold Counted.logCounts, Js.forEach. rewrite count_log_loop, lookup_empty.
    by destruct (length _).
  - apply new_Set_NoDup.
  - intros log Hlog. apply elem_of_uniqueLogAddresses.
    by apply list_elem_of_fmap_2, list_elem_of_fmap_2.
Qed.

Section NodeOrder.

Lemma foldl_Set_add_filter l : ∀ acc,
  foldl Js.Set_add acc l = acc ++ filter (λ k, k ∉ acc) (Js.new_Set l).
Proof.
  induction l as [|v l IH] using rev_ind; intros acc.
  - by rewrite app_nil_r.
  - unfold Js.new_Set. rewrite !foldl_app. cbn [foldl].
    fold (Js.new_Set l). rewrite IH. unfold Js.Set_add.
    destruct (decide (v ∈ Js.new_Set l)) as [HN|HN].
    + rewrite decide_True; [done|].
      destruct (decide (v ∈ acc)); [apply elem_of_app; by left|].
      apply elem_of_app. right. by apply list_elem_of_filter.
    + rewrite filter_app, filter_cons, filter_nil.
      destruct (decide (v ∈ acc)) as [Hacc|Hacc].
      * rewrite decide_True by (apply elem_of_app; by left).
        rewrite decide_False by (intros Hno; by apply Hno).
        by rewrite app_nil_r.
      * rewrite decide_False.
        2:{ rewrite elem_of_app, list_elem_of_filter. naive_solver. }
        rewrite decide_True by done. by rewrite app_assoc.
Qed.

Lemma draw_log_loop_ids to logs : ∀ index ns es am,
  (∀ k, is_Some (am !! k) ↔ k ∈ Node.id <$> ns) →
  Node.id <$> (Js.forEach_from (PerLog.draw_log to) index logs (ns, es, am)).1.1
  = foldl Js.Set_add (Node.id <$> ns) (Log.address <$> logs).
Proof.
  induction logs as [|log logs IH]; intros index ns es am Hdom; [done|].
  cbn [Js.forEach_from]. unfold PerLog.draw_log at 2.
  rewrite fmap_cons. cbn [foldl]. unfold Js.Set_add at 2.
  destruct (decide (is_Some (am !! Log.address log))) as [Hin|Hin].
  - rewrite decide_True by (by apply Hdom). by apply IH.
  - rewrite decide_False by (by rewrite <-Hdom).
    rewrite IH.
    + by rewrite fmap_app.
    + intros k. rewrite lookup_insert_is_Some, fmap_app, elem_of_app, Hdom.
      rewrite list_fmap_singleton, list_elem_of_singleton.
      destruct (decide (Log.address log = k)); naive_solver.
Qed.

End NodeOrder.

(** X11: the node ids come in the order sender, receiver, then the log
    addresses by first occurrence: they are what adding the log addresses one
    by one, in log order, to the ordered set of the parties gives, lowercased
    in the counting revision and as written in the other. On a receipt whose
    addresses are all in lower case the two revisions give the same ids. *)
Theorem node_ids_in_first_seen_order transaction receipt :
  let logged := Log.address <$> Receipt.logs receipt in
  Node.id <$> (Counted.synthesize transaction receipt).1
  = foldl Js.Set_add (party_ids receipt) (lower <$> logged)
  ∧ Node.id <$> (PerLog.synthesize transaction receipt).1
    = foldl Js.Set_add
        (Receipt.from receipt :: option_list (Js.truthy (Receipt.to receipt))) logged
  ∧ ((∀ a, a ∈ addresses receipt → lower a = a) →
     Node.id <$> (Counted.synthesize transaction receipt).1
     = Node.id <$> (PerLog.synthesize transaction receipt).1).
Proof.
  intros logged.
  assert (Node.id <$> (Counted.synthesize transaction receipt).1
          = foldl Js.Set_add (party_ids receipt) (lower <$> logged)) as Hcounted.
  { rewrite synthesize_node_ids, foldl_Set_add_filter.
    unfold Counted.uniqueLogAddresses, logged. by rewrite <-list_fmap_compose. }
  assert (Node.id <$> (PerLog.synthesize transaction receipt).1
          = foldl Js.Set_add
              (Receipt.from receipt :: option_list (Js.truthy (Receipt.to receipt)))
              logged) as Hperlog.
  { unfold PerLog.synthesize, PerLog.synthesize_state, Js.forEach.
    unfold PerLog.draw_parties.
    destruct (Js.truthy (Receipt.to receipt)) as [to_|].
    - rewrite draw_log_loop_ids; [done|].
      intros k. rewrite !lookup_insert_is_Some, lookup_empty, is_Some_alt.
      simpl. rewrite !elem_of_cons, elem_of_nil.
      destruct (decide (to_ = k)); naive_solver.
    - rewrite draw_log_loop_ids; [done|].
      intros k. rewrite !lookup_insert_is_Some, lookup_empty, is_Some_alt.
      simpl. rewrite !elem_of_cons, elem_of_nil. naive_solver. }
  split_and!; [done..|].
  intros Hlower. rewrite Hcounted, Hperlog. f_equal.
  - unfold party_ids. rewrite (Hlower (Receipt.from receipt)) by (by left).
    f_equal. unfold addresses in Hlower.
    destruct (Js.truthy (Receipt.to receipt)) as [to_|]; [|done]. simpl.
    rewrite (Hlower to_); [done|]. right. by left.
  - rewrite <-(list_fmap_id logged) at 2. apply list_fmap_ext.
    intros i a Ha. apply Hlower. unfold addresses. right. apply elem_of_app. right.
    by eapply list_elem_of_lookup_2.
Qed.

Lemma node_ids_in_first_seen_order_witness :
  let lowercase :=
    Sample.receipt (lower Sample.sender) (Some (lower Sample.receiver))
      [lower Sample.contractA; lower Sample.contractB; lower Sample.contractA] in
  Node.id <$> (Counted.synthesize Sample.one_ether lowercase).1
  = Node.id <$> (PerLog.synthesize Sample.one_ether lowercase).1.
Proof.
  intros lowercase.
  destruct (node_ids_in_first_seen_order Sample.one_ether lowercase) as (_ & _ & Hsame).
  apply Hsame. intros a Ha. vm_compute in Ha.
  repeat (apply elem_of_cons in Ha as [->|Ha]; [by vm_compute|]).
  by apply elem_of_nil in Ha.
Defined.

Section ContractNodes.

Lemma draw_contract_loop_nodes counts U : ∀ index ns am,
  ∃ extra am',
    Js.forEach_from (Counted.draw_contract counts) index U (ns, am)
    = (ns ++ extra, am')
    ∧ Forall (λ n, ∃ j, U !! j = Some (Node.id n)
                        ∧ n = Counted.contract_node (Node.id n) (index + j)
                                (default 0 (counts !! Node.id n))) extra.
Proof.
  induction U as [|a U IH]; intros index ns am.
  - exists [], am. by rewrite app_nil_r.
  - cbn [Js.forEach_from]. unfold Counted.draw_contract at 2. case_decide.
    + destruct (IH (S index) ns am) as (extra & am' & -> & Hall).
      exists extra, am'. split; [done|].
      eapply Forall_impl; [exact Hall|]. intros n (j & Hj & Hn).
      exists (S j). split; [done|]. by rewrite Nat.add_succ_r.
    + set (node := Counted.contract_node a index (default 0 (counts !! a))).
      destruct (IH (S index) (ns ++ [node]) (<[a:=true]> am))
        as (extra & am' & -> & Hall).
      exists (node :: extra), am'. rewrite <-app_assoc. split; [done|].
      constructor.
      * exists 0. by rewrite Nat.add_0_r.
      * eapply Forall_impl; [exact Hall|]. intros n (j & Hj & Hn).
        exists (S j). split; [done|]. by rewrite Nat.add_succ_r.
Qed.

End ContractNodes.

(** X12: in the counting revision every node that is not a party's is the
    contract node of one of the distinct lowercased log addresses, placed by
    the rank of that address among them and labelled and sized with the
    number of logs the address emitted, which is at least one; two such nodes
    at one position are one node. *)
Theorem contract_nodes_carry_their_counts transaction receipt :
  let ns := (Counted.synthesize transaction receipt).1 in
  let emitted k :=
    length (filter (λ log, lower (Log.address log) = k) (Receipt.logs receipt)) in
  let contract n := n ∈ ns ∧ Node.id n ∉ party_ids receipt in
  (∀ n, contract n →
     ∃ index,
       Counted.uniqueLogAddresses (Receipt.logs receipt) !! index = Some (Node.id n)
       ∧ n = Counted.contract_node (Node.id n) index (emitted (Node.id n))
       ∧ (1 ≤ emitted (Node.id n))%nat)
  ∧ (∀ n1 n2, contract n1 → contract n2 →
       Node.position n1 = Node.position n2 → n1 = n2).
Proof.
  intros ns emitted contract.
  assert (∀ n, contract n →
     ∃ index,
       Counted.uniqueLogAddresses (Receipt.logs receipt) !! index = Some (Node.id n)
       ∧ n = Counted.contract_node (Node.id n) index (emitted (Node.id n))
       ∧ (1 ≤ emitted (Node.id n))%nat) as Hnodes.
  { intros n [Hn Hid]. unfold ns, Counted.synthesize, Counted.synthesize_nodes,
      Js.forEach in Hn. cbn [fst] in Hn.
    set (counts := Counted.logCounts (Receipt.logs receipt)) in *.
    destruct (draw_parties_ids counts receipt) as [Hids _].
    destruct (draw_contract_loop_nodes counts
                (Counted.uniqueLogAddresses (Receipt.logs receipt)) 0
                (Counted.draw_parties counts receipt).1
                (Counted.draw_parties counts receipt).2)
      as (extra & am' & Heq & Hall).
    rewrite <-surjective_pairing in Heq. rewrite Heq in Hn. cbn [fst] in Hn.
    apply elem_of_app in Hn as [Hn|Hn].
    { destruct Hid. rewrite <-Hids. by apply list_elem_of_fmap_2. }
    rewrite Forall_forall in Hall. destruct (Hall n Hn) as (j & Hj & Hnode).
    assert (default 0 (counts !! Node.id n) = emitted (Node.id n)) as Hcount.
    { unfold counts, Counted.logCounts, Js.forEach.
      rewrite count_log_loop, lookup_empty. unfold emitted.
      by destruct (length _). }
    exists j. rewrite <-Hcount. split_and!; [done..|].
    rewrite Hcount. apply list_elem_of_lookup_2, elem_of_uniqueLogAddresses in Hj.
    apply list_elem_of_fmap in Hj as (a & Ha & Hin).
    apply list_elem_of_fmap in Hin as (log & -> & Hlog).
    unfold emitted.
    assert (log ∈ filter (λ log, lower (Log.address log) = Node.id n)
                    (Receipt.logs receipt)) as Hfilter
      by (by apply list_elem_of_filter).
    destruct (filter _ _); [by apply elem_of_nil in Hfilter|simpl; lia]. }
  split; [exact Hnodes|].
  intros n1 n2 H1 H2 Hpos.
  destruct (Hnodes n1 H1) as (i1 & Hi1 & Hn1 & _).
  destruct (Hnodes n2 H2) as (i2 & Hi2 & Hn2 & _).
  rewrite Hn1, Hn2 in Hpos. simpl in Hpos.
  assert (i1 = i2) as <- by (injection Hpos; lia).
  assert (Node.id n1 = Node.id n2) as Hid by congruence.
  rewrite Hn1, Hn2, Hid. done.
Qed.

Lemma contract_nodes_carry_their_counts_witness :
  ∃ index,
    Counted.uniqueLogAddresses (Receipt.logs Sample.transfer) !! index
    = Some (lower Sample.contractA)
    ∧ Counted.contract_node (lower Sample.contractA) 0 2
      = Counted.contract_node (lower Sample.contractA) index
          (length (filter (λ log, lower (Log.address log) = lower Sample.contractA)
                     (Receipt.logs Sample.transfer))).
Proof.
  destruct (contract_nodes_carry_their_counts Sample.one_ether Sample.transfer)
    as [Hnodes _].
  destruct (Hnodes (Counted.contract_node (lower Sample.contractA) 0 2))
    as (index & Hindex & Hnode & _).
  - split.
    + vm_compute. do 2 right. left.
    + vm_compute. intros Hin.
      repeat (apply elem_of_cons in Hin as [[=]|Hin]). by apply elem_of_nil in Hin.
  - exists index. by split.
Defined.

(** X13: the node ids of a run are pairwise distinct exactly when the
    receiver is absent or is not the sender, the two compared in lower case
    in the counting revision and as written in the other; a transfer of an
    account to itself is drawn with two nodes of one id. *)
Theorem node_ids_distinct_iff transaction receipt :
  (NoDup (Node.id <$> (Counted.synthesize transaction receipt).1)
   ↔ ∀ to_, Js.truthy (Receipt.to receipt) = Some to_ →
            lower (Receipt.from receipt) ≠ lower to_)
  ∧ (NoDup (Node.id <$> (PerLog.synthesize transaction receipt).1)
     ↔ ∀ to_, Js.truthy (Receipt.to receipt) = Some to_ →
              Receipt.from receipt ≠ to_).
Proof.
  split.
  - split; [|apply counted_ids_NoDup].
    rewrite synthesize_node_ids. intros [Hparties _]%NoDup_app to_ Hto.
    unfold party_ids in Hparties. rewrite Hto in Hparties. simpl in Hparties.
    apply NoDup_cons in Hparties as [Hne _].
    intros Heq. apply Hne. rewrite Heq. by left.
  - unfold PerLog.synthesize, PerLog.synthesize_state, Js.forEach,
      PerLog.draw_parties.
    destruct (Js.truthy (Receipt.to receipt)) as [to_|].
    + rewrite draw_log_loop_ids.
      2:{ intros k. rewrite !lookup_insert_is_Some, lookup_empty, is_Some_alt.
          simpl. rewrite !elem_of_cons, elem_of_nil.
          destruct (decide (to_ = k)); naive_solver. }
      simpl. split.
      * rewrite foldl_Set_add_filter. intros [Hparties _]%NoDup_app ? [= <-].
        apply NoDup_cons in Hparties as [Hne _].
        intros Heq. apply Hne. rewrite Heq. by left.
      * intros Hne. apply foldl_Set_add_NoDup.
        apply NoDup_cons. split; [|apply NoDup_singleton].
        rewrite list_elem_of_singleton. by apply Hne.
    + rewrite draw_log_loop_ids.
      2:{ intros k. rewrite !lookup_insert_is_Some, lookup_empty, is_Some_alt.
          simpl. rewrite !elem_of_cons, elem_of_nil. naive_solver. }
      split; [done|]. intros _. apply foldl_Set_add_NoDup, NoDup_singleton.
Qed.

Lemma node_ids_distinct_iff_witness :
  ¬ NoDup (Node.id <$> (Counted.synthesize Sample.one_ether Sample.self_transfer).1)
  ∧ NoDup (Node.id <$> (PerLog.synthesize Sample.one_ether Sample.transfer).1).
Proof.
  destruct (node_ids_distinct_iff Sample.one_ether Sample.self_transfer) as [Hself _].
  destruct (node_ids_distinct_iff Sample.one_ether Sample.transfer) as [_ Hother].
  split.
  - intros Hnd. by apply (proj1 Hself Hnd Sample.sender).
  - apply Hother. intros to_ [= <-]. by vm_compute.
Defined.

(** X14: what a run of the effect writes does not depend on what was shown
    before it: from any two states it leaves the same summary, graph, error
    and loading mark. *)
Theorem run_recomputes_from_scratch
    (synthesize : Transaction.t → Receipt.t → list Node.t * list Edge.t)
    (env : Env) (st st' : State) (hash : string) :
  let s := ui (fetchAndProcessTransaction synthesize env hash (start st)).2 in
  let s' := ui (fetchAndProcessTransaction synthesize env hash (start st')).2 in
  txInfo s = txInfo s' ∧ nodes s = nodes s' ∧ edges s = edges s'
  ∧ error s = error s' ∧ isLoading s = isLoading s'.
Proof.
  destruct st as [input target info loading err ns es].
  destruct st' as [input' target' info' loading' err' ns' es'].
  destruct env as [url [getTx getRc rcFirst]]. ui_run.
  destruct url as [url|]; ui_run; [|done].
  case_decide; ui_run; [done|].
  destruct (getTx hash) as [[tx|]|e1], (getRc hash) as [[rc|]|e2]; ui_run;
    try destruct (synthesize tx rc) as [newNodes newEdges];
    try destruct (rcFirst hash); ui_run;
    try destruct (Thrown.instanceofError e1 && bool_decide (Thrown.name e1 = _));
    try destruct (Thrown.instanceofError e2 && bool_decide (Thrown.name e2 = _));
    by ui_run.
Qed.

Section Labels.

Lemma length_append (a b : string) :
  String.length (a +:+ b) = (String.length a + String.length b)%nat.
Proof.
  induction a as [|c a IH]; [done|].
  change (S (String.length (a +:+ b)) = S (String.length a + String.length b)).
  by rewrite IH.
Qed.

Lemma length_substring s : ∀ n m,
  String.length (substring n m s) = (m `min` (String.length s - n))%nat.
Proof.
  induction s as [|c s IH]; intros [|n] [|m];
    cbn [substring String.length]; rewrite ?IH; lia.
Qed.

End Labels.

(** X15: the shortened address of a label is the first six characters, three
    dots and the last four characters, each part cut to the string when the
    string is shorter: its length is min(6, n) + 3 + min(4, n) for a string of
    n characters, so thirteen for every address of ten characters or more. *)
Theorem truncated_length (address : string) :
  String.length (truncated address)
  = ((6 `min` String.length address) + 3 + (4 `min` String.length address))%nat.
Proof.
  unfold truncated, Js.slice. rewrite !length_append, !length_substring.
  change (String.length "...") with 3%nat.
  set (n := String.length address).
  change (0 <? 0)%Z with false. change (6 <? 0)%Z with false.
  change (-4 <? 0)%Z with true. cbv iota. lia.
Qed.

(** X16: in the counting revision the ids of the edges of a run are pairwise
    distinct when the sender address begins with [0x], as every address of
    the chain client does. *)
Theorem counted_edge_ids_distinct transaction receipt body :
  Receipt.from receipt = "0x" +:+ body →
  NoDup (Edge.id <$> (Counted.synthesize transaction receipt).2).
Proof.
  intros Hfrom.
  destruct (Js.truthy (Receipt.to receipt)) as [to_|] eqn:Hto.
  - rewrite (synthesize_edges_eq _ _ _ Hto), fmap_cons, <-list_fmap_compose.
    apply NoDup_cons. split.
    + intros (k & Hid & _)%list_elem_of_fmap.
      unfold compose, Counted.contract_edge, transfer_edge in Hid.
      cbn [Edge.id] in Hid. rewrite Hfrom in Hid. discriminate Hid.
    + apply NoDup_fmap_2_strong.
      * intros k1 k2 _ _ Hid.
        unfold compose, Counted.contract_edge in Hid. cbn [Edge.id] in Hid.
        by do 3 apply (inj (String.app _)) in Hid.
      * apply NoDup_filter_stable, new_Set_NoDup.
  - destruct (synthesize_edges_nil transaction receipt Hto) as [-> _]. constructor.
Qed.

Lemma counted_edge_ids_distinct_witness :
  NoDup (Edge.id <$> (Counted.synthesize Sample.one_ether Sample.transfer).2).
Proof.
  by apply (counted_edge_ids_distinct Sample.one_ether Sample.transfer
              "5E11e7000000000000000000000000000000aaaa").
Defined.
